(** * autoindexmaker: the search-indexing workflow of [src/__init__.py]

    A shallow embedding of the Azure Function that provisions a search
    index, one data source and one indexer per configured blob container,
    together with the properties of the workflow that its specification
    states.

    Python [str] values are sequences of Unicode code points; the process
    environment is a finite map; the calls that leave the process (the
    storage enumeration and the three [requests] calls) are answered by an
    arbitrary [World]; every function of the module that logs, calls out or
    raises is a computation in the monad [M], which records what it emits.
    The functions that log are written over the standard output that
    [print] writes to, which may refuse a line ([Printing]); under their
    own names they are taken with a standard output that accepts every
    line. *)

From Stdlib Require Import ZArith NArith String Ascii Decimal DecimalString.
From stdpp Require Import base list gmap.

Local Open Scope list_scope.
Set Warnings "-register-all".

(* ===================================================================== *)
(** ** Python strings *)
(* ===================================================================== *)

Module PyStr.

(** A code point, 0 .. 0x10FFFF. *)
Definition char : Type := N.

(** A Python [str]. *)
Definition str : Type := list char.

(** The [str] of an ASCII literal of the source. *)
Fixpoint lit (s : string) : str :=
  match s with
  | EmptyString => []
  | String a s' => N_of_ascii a :: lit s'
  end.

Arguments lit : simpl never.

(** The same, for a literal that contains double quotes, each written here
    as an apostrophe. *)
Definition quoted (s : string) : str :=
  map (fun c => if (c =? 39)%N then 34%N else c) (lit s).

Definition comma : char := 44%N.

(** [str.isspace] on one code point: CPython's [_PyUnicode_IsWhitespace]. *)
Definition isspace (c : char) : bool :=
  ((9 <=? c) && (c <=? 13) ||
   (28 <=? c) && (c <=? 32) ||
   (c =? 133) || (c =? 160) || (c =? 5760) ||
   (8192 <=? c) && (c <=? 8202) ||
   (c =? 8232) || (c =? 8233) || (c =? 8239) || (c =? 8287) ||
   (c =? 12288))%N.

(** [s.lstrip()] *)
Fixpoint lstrip (s : str) : str :=
  match s with
  | [] => []
  | c :: s' => if isspace c then lstrip s' else s
  end.

(** [s.rstrip()] *)
Definition rstrip (s : str) : str := reverse (lstrip (reverse s)).

(** [s.strip()]: leading and trailing whitespace removed. *)
Definition strip (s : str) : str := rstrip (lstrip s).

(** [s.split(sep)] for a one-character separator: the pieces between the
    separators, empty pieces kept; never the empty list. *)
Fixpoint split (sep : char) (s : str) : list str :=
  match s with
  | [] => [[]]
  | c :: s' =>
      if (c =? sep)%N then [] :: split sep s'
      else match split sep s' with
           | [] => [[c]]
           | w :: ws => (c :: w) :: ws
           end
  end.

(** [str(n)] for an [int]. *)
Definition of_Z (z : Z) : str := lit (NilZero.string_of_int (Z.to_int z)).

(** The formatting of an optional value in an f-string: [None] prints as
    the word None. *)
Definition format (o : option str) : str :=
  match o with
  | Some s => s
  | None => lit "None"
  end.

End PyStr.

Export PyStr.

(* ===================================================================== *)
(** ** JSON values and [json.dumps] *)
(* ===================================================================== *)

Module Json.

(** The values the module builds as [dict]/[list] literals and hands to
    [requests] ([json=payload]) or to [json.dumps]. A [dict] keeps the
    order in which its keys were written. *)
Inductive JSON : Type :=
| JNull
| JBool (b : bool)
| JInt (z : Z)
| JStr (s : str)
| JList (l : list JSON)
| JDict (kvs : list (str * JSON)).

(** [d.get(key)] on a [dict] literal. *)
Fixpoint get (key : str) (kvs : list (str * JSON)) : option JSON :=
  match kvs with
  | [] => None
  | (k, v) :: kvs' => if decide (k = key) then Some v else get key kvs'
  end.

Definition field (key : str) (v : JSON) : option JSON :=
  match v with
  | JDict kvs => get key kvs
  | _ => None
  end.

Definition hexdigit (d : N) : char :=
  (if d <? 10 then 48 + d else 87 + d)%N.

(** The four lower-case hexadecimal digits of a 16-bit unit. *)
Definition hex4 (n : N) : str :=
  [hexdigit (N.land (N.shiftr n 12) 15); hexdigit (N.land (N.shiftr n 8) 15);
   hexdigit (N.land (N.shiftr n 4) 15); hexdigit (N.land n 15)].

Definition backslash : char := 92%N.
Definition dquote : char := 34%N.

Definition escape_u (n : N) : str := backslash :: 117%N :: hex4 n.

(** One character of [py_encode_basestring_ascii] ([ensure_ascii=True]). *)
Definition escape_char (c : char) : str :=
  (if c =? dquote then [backslash; dquote]
   else if c =? backslash then [backslash; backslash]
   else if c =? 10 then [backslash; 110]
   else if c =? 13 then [backslash; 114]
   else if c =? 9 then [backslash; 116]
   else if c =? 12 then [backslash; 102]
   else if c =? 8 then [backslash; 98]
   else if (32 <=? c) && (c <=? 126) then [c]
   else if c <? 65536 then escape_u c
   else let v := c - 65536 in
        escape_u (N.lor 55296 (N.land (N.shiftr v 10) 1023)) ++
        escape_u (N.lor 56320 (N.land v 1023)))%N.

Definition encode_basestring_ascii (s : str) : str :=
  dquote :: concat (map escape_char s) ++ [dquote].

(** [sep.join(parts)] *)
Fixpoint join (sep : str) (parts : list str) : str :=
  match parts with
  | [] => []
  | [p] => p
  | p :: ps => p ++ sep ++ join sep ps
  end.

(** [json.dumps(v)] with the default separators. *)
Fixpoint dumps (v : JSON) : str :=
  match v with
  | JNull => lit "null"
  | JBool true => lit "true"
  | JBool false => lit "false"
  | JInt z => of_Z z
  | JStr s => encode_basestring_ascii s
  | JList l => lit "[" ++ join (lit ", ") (map dumps l) ++ lit "]"
  | JDict kvs =>
      lit "{" ++
      join (lit ", ")
        (map (fun kv => match kv with
                        | (k, x) => encode_basestring_ascii k ++ lit ": " ++ dumps x
                        end) kvs) ++
      lit "}"
  end.

End Json.

Export Json.

(* ===================================================================== *)
(** ** Configuration read from the environment at import time *)
(* ===================================================================== *)

(** [os.environ] *)
Abbreviation Environ := (gmap str str).

(** [os.getenv(key)]: [None] when the variable is unset. *)
Definition getenv (env : Environ) (key : str) : option str := env !! key.

(** [os.getenv(key, default)] *)
Definition getenv_default (env : Environ) (key : str) (default : str) : str :=
  match env !! key with
  | Some v => v
  | None => default
  end.

(** The module-level constants. *)
Record Config : Type := {
  SEARCH_ENDPOINT : option str;
  SEARCH_API_KEY : option str;
  STORAGE_CONN_STRING : option str;
  BLOB_CONTAINERS : str
}.

Definition load_config (env : Environ) : Config := {|
  SEARCH_ENDPOINT := getenv env (lit "AZURE_SEARCH_ENDPOINT");
  SEARCH_API_KEY := getenv env (lit "AZURE_SEARCH_ADMIN_KEY");
  STORAGE_CONN_STRING := getenv env (lit "AZURE_STORAGE_CONNECTION_STRING");
  BLOB_CONTAINERS := getenv_default env (lit "BLOB_CONTAINERS") []
|}.

(** [HEADERS]; an unset key is the value [None]. *)
Definition HEADERS (cfg : Config) : list (str * option str) :=
  [(lit "Content-Type", Some (lit "application/json"));
   (lit "api-key", SEARCH_API_KEY cfg)].

(* ===================================================================== *)
(** ** The outside world, events and the effect monad *)
(* ===================================================================== *)

Inductive Method : Type := POST | PUT.

(** A call [requests.post(url, headers=..., json=...)] or [requests.put]. *)
Record Request : Type := {
  method : Method;
  url : str;
  headers : list (str * option str);
  json : JSON
}.

(** What the module reads of a [requests.Response]. *)
Record Response : Type := {
  status_code : Z;
  text : str
}.

(** Exceptions (instances of [Exception]): the [ValueError] the module
    raises itself, and whatever the storage or HTTP libraries raise, of
    which only [str(e)] is ever observed. *)
Inductive exn : Type :=
| ValueError (msg : str)
| LibraryError (msg : str).

(** [str(e)] *)
Definition exn_str (e : exn) : str :=
  match e with
  | ValueError msg => msg
  | LibraryError msg => msg
  end.

(** The lines written by [log], one constructor per call site, carrying the
    values interpolated into the f-string. *)
Inductive LogMsg : Type :=
| LogHttpTrigger
| LogStart
| LogCreatingIndex
| LogIndexResponse (status : Z) (body : str)
| LogAvailable (available : list str)
| LogTargets (valid : list str)
| LogCreatingDataSource (container_name : str)
| LogDataSourceResponse (status : Z) (body : str)
| LogCreatingIndexer (container_name : str)
| LogIndexerResponse (status : Z) (body : str)
| LogComplete
| LogError (msg : str).

(** What a run does that is visible outside the function: a log line, the
    enumeration of the storage account's containers, a request to the
    search service. *)
Inductive Event : Type :=
| EvLog (m : LogMsg)
| EvListContainers (conn : option str)
| EvRequest (r : Request).

Inductive result (A : Type) : Type :=
| Return (a : A)
| Raise (e : exn).
Arguments Return {A} a.
Arguments Raise {A} e.

(** The storage account and the search service. Each answer may depend on
    everything that happened before the call; a call that does not come
    back with an answer raises. *)
Record World : Type := {
  storage_answer : list Event -> option str -> result (list str);
  http_answer : list Event -> Request -> result Response
}.

(** A computation: given the world and the events so far, the events it
    emits and its outcome. *)
Definition M (A : Type) : Type := World -> list Event -> list Event * result A.

#[global] Instance M_ret : MRet M := fun A a _ _ => ([], Return a).

#[global] Instance M_bind : MBind M := fun A B k m w h =>
  match m w h with
  | (ev, Return a) =>
      match k a w (h ++ ev) with
      | (ev', r) => (ev ++ ev', r)
      end
  | (ev, Raise e) => (ev, Raise e)
  end.

Definition raise {A : Type} (e : exn) : M A := fun _ _ => ([], Raise e).

(** The standard output, as [print] sees it: given the events so far,
    either the line is written or [print] raises (the text cannot be
    encoded, the stream is closed). *)
Definition Stdout : Type := list Event -> LogMsg -> result unit.

(** A standard output that takes every line. *)
Definition accepting : Stdout := fun _ _ => Return tt.

(** [BlobServiceClient.from_connection_string(conn).list_containers()],
    read to the end, names only. *)
Definition list_containers (conn : option str) : M (list str) := fun w h =>
  ([EvListContainers conn], storage_answer w (h ++ [EvListContainers conn]) conn).

(** [requests.post] / [requests.put]. *)
Definition send (r : Request) : M Response := fun w h =>
  ([EvRequest r], http_answer w (h ++ [EvRequest r]) r).

(** [try: body except Exception as e: handler(e)] *)
Definition try_except {A : Type} (body : M A) (handler : exn -> M A) : M A :=
  fun w h =>
    match body w h with
    | (ev, Return a) => (ev, Return a)
    | (ev, Raise e) =>
        match handler e w (h ++ ev) with
        | (ev', r) => (ev ++ ev', r)
        end
    end.

(** [for x in l: body(x)] *)
Fixpoint for_each {A : Type} (l : list A) (body : A -> M unit) : M unit :=
  match l with
  | [] => mret tt
  | x :: l' => body x;; for_each l' body
  end.

Definition emitted {A : Type} (o : list Event * result A) : list Event := fst o.
Definition outcome {A : Type} (o : list Event * result A) : result A := snd o.

(** The requests sent to the search service, in order. *)
Definition requests (tr : list Event) : list Request :=
  omap (fun e => match e with EvRequest r => Some r | _ => None end) tr.

(** The calls that leave the process (storage and search), in order. *)
Definition is_call (e : Event) : bool :=
  match e with
  | EvLog _ => false
  | _ => true
  end.

Definition calls (tr : list Event) : list Event := List.filter is_call tr.

(* ===================================================================== *)
(** ** The requests and payloads of the module *)
(* ===================================================================== *)

Definition api_version : str := lit "?api-version=2024-07-01".

Definition index_name : str := lit "financial-index".

(** The allow-list as the resolver reads it:
    [[c.strip() for c in BLOB_CONTAINERS.split(",")]]. *)
Definition target_names (blob_containers : str) : list str :=
  map strip (split comma blob_containers).

(** [[c for c in target if c in available]] *)
Definition valid_containers (target available : list str) : list str :=
  filter (fun c => c ∈ available) target.

Definition err_not_set : exn :=
  ValueError (lit "BLOB_CONTAINERS env var is not set.").

Definition err_no_valid : exn :=
  ValueError (lit "No valid containers found to index.").

Definition index_payload : JSON :=
  JDict [
    (lit "name", JStr index_name);
    (lit "fields", JList [
      JDict [(lit "name", JStr (lit "id")); (lit "type", JStr (lit "Edm.String"));
             (lit "key", JBool true); (lit "searchable", JBool false)];
      JDict [(lit "name", JStr (lit "content")); (lit "type", JStr (lit "Edm.String"));
             (lit "searchable", JBool true)];
      JDict [(lit "name", JStr (lit "metadata_storage_name"));
             (lit "type", JStr (lit "Edm.String"));
             (lit "filterable", JBool true); (lit "sortable", JBool true)];
      JDict [(lit "name", JStr (lit "metadata_storage_path"));
             (lit "type", JStr (lit "Edm.String")); (lit "filterable", JBool true)];
      JDict [(lit "name", JStr (lit "metadata_storage_last_modified"));
             (lit "type", JStr (lit "Edm.DateTimeOffset")); (lit "sortable", JBool true)]
    ])
  ].

Definition index_request (cfg : Config) : Request := {|
  method := POST;
  url := format (SEARCH_ENDPOINT cfg) ++ lit "/indexes" ++ api_version;
  headers := HEADERS cfg;
  json := index_payload
|}.

Definition opt_json (o : option str) : JSON :=
  match o with
  | Some s => JStr s
  | None => JNull
  end.

Definition data_source_payload (cfg : Config) (container_name : str) : JSON :=
  JDict [
    (lit "name", JStr (container_name ++ lit "-ds"));
    (lit "type", JStr (lit "azureblob"));
    (lit "credentials", JDict [(lit "connectionString", opt_json (STORAGE_CONN_STRING cfg))]);
    (lit "container", JDict [(lit "name", JStr container_name)])
  ].

Definition data_source_request (cfg : Config) (container_name : str) : Request := {|
  method := PUT;
  url := format (SEARCH_ENDPOINT cfg) ++ lit "/datasources/" ++ container_name ++
         lit "-ds" ++ api_version;
  headers := HEADERS cfg;
  json := data_source_payload cfg container_name
|}.

Definition indexer_payload (container_name : str) : JSON :=
  JDict [
    (lit "name", JStr (container_name ++ lit "-idx"));
    (lit "dataSourceName", JStr (container_name ++ lit "-ds"));
    (lit "targetIndexName", JStr index_name);
    (lit "parameters", JDict [
      (lit "maxFailedItems", JInt (-1));
      (lit "maxFailedItemsPerBatch", JInt (-1));
      (lit "configuration", JDict [
        (lit "failOnUnsupportedContentType", JBool false);
        (lit "failOnUnprocessableDocument", JBool false);
        (lit "indexedFileNameExtensions", JStr (lit ".pdf,.docx,.xlsx,.md,.txt"));
        (lit "excludedFileNameExtensions", JStr (lit ".png,.jpeg"));
        (lit "dataToExtract", JStr (lit "contentAndMetadata"))
      ])
    ])
  ].

Definition indexer_request (cfg : Config) (container_name : str) : Request := {|
  method := PUT;
  url := format (SEARCH_ENDPOINT cfg) ++ lit "/indexers/" ++ container_name ++
         lit "-idx" ++ api_version;
  headers := HEADERS cfg;
  json := indexer_payload container_name
|}.

(** The [dict] returned by a run that completes. *)
Definition success_descriptor (containers : list str) : JSON :=
  JDict [(lit "status", JStr (lit "success"));
         (lit "containers", JList (map JStr containers))].

(** The trigger's request; the handler does not read it. *)
Record HttpRequest : Type := {
  req_method : str;
  req_url : str;
  req_body : str
}.

(** [func.HttpResponse(body, status_code=..., mimetype=...)] *)
Record HttpResponse : Type := {
  resp_body : str;
  resp_status_code : Z;
  resp_mimetype : str
}.

Definition error_descriptor (message : str) : JSON :=
  JDict [(lit "status", JStr (lit "error")); (lit "message", JStr message)].

(* ===================================================================== *)
(** ** The functions of the module *)
(* ===================================================================== *)

(** The functions that log are written once, over the standard output
    [out] they print to. *)
Module Printing.

Section Output.

Context (out : Stdout).

(** [log(msg)]: [print] of the line, which is recorded when it is written;
    when [print] raises, so does [log]. *)
Definition log (m : LogMsg) : M unit := fun _ h =>
  match out h m with
  | Return _ => ([EvLog m], Return tt)
  | Raise e => ([], Raise e)
  end.

Definition get_target_containers (cfg : Config) : M (list str) :=
  match BLOB_CONTAINERS cfg with
  | [] => raise err_not_set
  | _ :: _ =>
      let target := target_names (BLOB_CONTAINERS cfg) in
      available ← list_containers (STORAGE_CONN_STRING cfg);
      log (LogAvailable available);;
      let valid := valid_containers target available in
      match valid with
      | [] => raise err_no_valid
      | _ :: _ => log (LogTargets valid);; mret valid
      end
  end.

Definition create_search_index (cfg : Config) : M unit :=
  log LogCreatingIndex;;
  response ← send (index_request cfg);
  log (LogIndexResponse (status_code response) (text response)).

Definition create_data_source (cfg : Config) (container_name : str) : M unit :=
  log (LogCreatingDataSource container_name);;
  response ← send (data_source_request cfg container_name);
  log (LogDataSourceResponse (status_code response) (text response)).

Definition create_indexer (cfg : Config) (container_name : str) : M unit :=
  log (LogCreatingIndexer container_name);;
  response ← send (indexer_request cfg container_name);
  log (LogIndexerResponse (status_code response) (text response)).

Definition run_indexing (cfg : Config) : M JSON :=
  log LogStart;;
  create_search_index cfg;;
  containers ← get_target_containers cfg;
  for_each containers (fun c => create_data_source cfg c;; create_indexer cfg c);;
  log LogComplete;;
  mret (success_descriptor containers).

Definition manual_index (cfg : Config) (req : HttpRequest) : M HttpResponse :=
  log LogHttpTrigger;;
  try_except
    (result ← run_indexing cfg;
     mret {| resp_body := dumps result; resp_status_code := 200;
             resp_mimetype := lit "application/json" |})
    (fun e =>
       log (LogError (exn_str e));;
       mret {| resp_body := dumps (error_descriptor (exn_str e));
               resp_status_code := 500;
               resp_mimetype := lit "application/json" |}).

End Output.

End Printing.

(** The same functions with a standard output that takes every line:
    what the module does as long as no [print] fails. What it does when
    one fails is stated over [Printing]. *)
Definition log (m : LogMsg) : M unit := Printing.log accepting m.

Definition get_target_containers (cfg : Config) : M (list str) :=
  Printing.get_target_containers accepting cfg.

Definition create_search_index (cfg : Config) : M unit :=
  Printing.create_search_index accepting cfg.

Definition create_data_source (cfg : Config) (container_name : str) : M unit :=
  Printing.create_data_source accepting cfg container_name.

Definition create_indexer (cfg : Config) (container_name : str) : M unit :=
  Printing.create_indexer accepting cfg container_name.

Definition run_indexing (cfg : Config) : M JSON :=
  Printing.run_indexing accepting cfg.

Definition manual_index (cfg : Config) (req : HttpRequest) : M HttpResponse :=
  Printing.manual_index accepting cfg req.

(* ===================================================================== *)
(** ** Vocabulary of the specification *)
(* ===================================================================== *)

(** The ordered intersection of the configured and the available names,
    in configured order: the greatest subsequence of the configured list
    whose entries are all available. *)
Definition is_ordered_intersection (configured available valid : list str) : Prop :=
  valid `sublist_of` configured ∧
  (∀ c, c ∈ valid → c ∈ available) ∧
  (∀ l, l `sublist_of` configured → (∀ c, c ∈ l → c ∈ available) → l `sublist_of` valid).

(** The two errors of the resolver. *)
Definition is_ConfigurationError (e : exn) : Prop :=
  e = err_not_set ∨ e = err_no_valid.

(** The allow-list variable is unset, or set to the empty string. *)
Definition allow_list_absent_or_empty (env : Environ) : Prop :=
  env !! lit "BLOB_CONTAINERS" = None ∨ env !! lit "BLOB_CONTAINERS" = Some [].

(** Every request to the search service comes back with a response,
    whatever its status. *)
Definition transport_ok (w : World) : Prop :=
  ∀ h r, ∃ response, http_answer w h r = Return response.

(** The storage account's containers are [available], whenever asked. *)
Definition storage_lists (w : World) (conn : option str) (available : list str) : Prop :=
  ∀ h, storage_answer w h conn = Return available.

(** The URL that addresses the resource [name] of a collection. *)
Definition resource_url (cfg : Config) (collection name : str) : str :=
  format (SEARCH_ENDPOINT cfg) ++ lit "/" ++ collection ++ lit "/" ++ name ++ api_version.

(** A create-or-update request: a [PUT] addressed to the resource that the
    payload names. *)
Definition is_upsert (cfg : Config) (collection : str) (r : Request) : bool :=
  match method r, field (lit "name") (json r) with
  | PUT, Some (JStr name) => bool_decide (url r = resource_url cfg collection name)
  | _, _ => false
  end.

(** [s.removeprefix(p)] when [s] starts with [p]. *)
Fixpoint strip_prefix (p s : str) : option str :=
  match p, s with
  | [], _ => Some s
  | a :: p', b :: s' => if (a =? b)%N then strip_prefix p' s' else None
  | _ :: _, [] => None
  end.

Definition starts_with (p s : str) : bool :=
  match strip_prefix p s with
  | Some _ => true
  | None => false
  end.

(** The three kinds of resource of the search service, told apart by the
    path that follows the endpoint in a request's URL. *)
Inductive Resource : Type := Index | DataSource | Indexer.

#[global] Instance Resource_eq_dec : EqDecision Resource.
Proof. solve_decision. Defined.

Definition resource_of (cfg : Config) (r : Request) : option Resource :=
  match strip_prefix (format (SEARCH_ENDPOINT cfg)) (url r) with
  | None => None
  | Some path =>
      if starts_with (lit "/indexes?") path then Some Index
      else if starts_with (lit "/datasources/") path then Some DataSource
      else if starts_with (lit "/indexers/") path then Some Indexer
      else None
  end.

Definition count_resource (cfg : Config) (k : Resource) (rs : list Request) : nat :=
  length (filter (fun r => resource_of cfg r = Some k) rs).

(** The requests of one container, in the order of the loop body. *)
Definition container_requests (cfg : Config) (c : str) : list Request :=
  [data_source_request cfg c; indexer_request cfg c].

(** The requests of a run whose every request is answered, given the
    containers that the storage account lists. *)
Definition expected_requests (cfg : Config) (available : list str) : list Request :=
  index_request cfg ::
  match BLOB_CONTAINERS cfg with
  | [] => []
  | _ :: _ =>
      flat_map (container_requests cfg)
        (valid_containers (target_names (BLOB_CONTAINERS cfg)) available)
  end.

(** How many times the name [c] occurs in a list of names. *)
Definition occurrences (c : str) (l : list str) : nat :=
  length (filter (fun x => x = c) l).

(** How many of the requests are sent to the URL [u]. *)
Definition count_url (u : str) (rs : list Request) : nat :=
  length (filter (fun r => url r = u) rs).

(** A printable ASCII character, space to tilde. *)
Definition printable (c : char) : bool := ((32 <=? c) && (c <=? 126))%N.

(** The string consists of printable ASCII characters only. *)
Definition is_ascii (s : str) : bool := forallb printable s.

(** How many times the character [c] occurs in [s]. *)
Definition count_char (c : char) (s : str) : nat :=
  length (filter (fun x => x = c) s).

(** The string is made of whitespace only. *)
Definition is_blank (s : str) : Prop := Forall (fun c => isspace c = true) s.

(* ===================================================================== *)
(** ** Unfolding the functions *)
(* ===================================================================== *)

Ltac fold_accepting :=
  repeat match goal with
    | |- context [Printing.log accepting ?m] =>
        change (Printing.log accepting m) with (log m)
    | |- context [Printing.get_target_containers accepting ?cfg] =>
        change (Printing.get_target_containers accepting cfg)
          with (get_target_containers cfg)
    | |- context [Printing.create_search_index accepting ?cfg] =>
        change (Printing.create_search_index accepting cfg)
          with (create_search_index cfg)
    | |- context [Printing.create_data_source accepting ?cfg ?c] =>
        change (Printing.create_data_source accepting cfg c)
          with (create_data_source cfg c)
    | |- context [Printing.create_indexer accepting ?cfg ?c] =>
        change (Printing.create_indexer accepting cfg c) with (create_indexer cfg c)
    | |- context [Printing.run_indexing accepting ?cfg] =>
        change (Printing.run_indexing accepting cfg) with (run_indexing cfg)
    end.

(** With a standard output that accepts every line, the functions read
    as the source does, [log] never raising. *)
Lemma log_accepting m w h : log m w h = ([EvLog m], Return tt).
Proof. reflexivity. Qed.

Lemma create_search_index_accepting cfg :
  create_search_index cfg =
    (log LogCreatingIndex;;
     response ← send (index_request cfg);
     log (LogIndexResponse (status_code response) (text response))).
Proof. reflexivity. Qed.

Lemma run_indexing_accepting cfg :
  run_indexing cfg =
    (log LogStart;;
     create_search_index cfg;;
     containers ← get_target_containers cfg;
     for_each containers (fun c => create_data_source cfg c;; create_indexer cfg c);;
     log LogComplete;;
     mret (success_descriptor containers)).
Proof. reflexivity. Qed.

(* ===================================================================== *)
(** ** Strings *)
(* ===================================================================== *)

Example split_abc :
  split comma (lit "a,b,c") = [lit "a"; lit "b"; lit "c"].
Proof. reflexivity. Qed.

Example split_empty_pieces :
  split comma (lit "a,,b,") = [lit "a"; []; lit "b"; []].
Proof. reflexivity. Qed.

Example strip_both : strip (lit "  a b	 ") = lit "a b".
Proof. reflexivity. Qed.

Example of_Z_neg : of_Z (-1) = lit "-1" /\ of_Z 200 = lit "200" /\ of_Z 0 = lit "0".
Proof. repeat split; reflexivity. Qed.

Lemma split_nonempty sep s : split sep s ≠ [].
Proof.
  destruct s as [|c s]; simpl; [done|].
  destruct (c =? sep)%N; [done|]. by destruct (split sep s).
Qed.

Lemma strip_prefix_app p s : strip_prefix p (p ++ s) = Some s.
Proof.
  induction p as [|a p IH]; simpl; [done|]. by rewrite N.eqb_refl.
Qed.

(* ===================================================================== *)
(** ** The resolver *)
(* ===================================================================== *)

Section Resolver.

Context (target available : list str).

Lemma valid_containers_sublist :
  valid_containers target available `sublist_of` target.
Proof. apply sublist_filter. Qed.

Lemma elem_of_valid_containers c :
  c ∈ valid_containers target available ↔ c ∈ target ∧ c ∈ available.
Proof. unfold valid_containers. rewrite list_elem_of_filter. tauto. Qed.

Lemma valid_containers_nil :
  valid_containers target available = [] ↔ ∀ c, c ∈ target → c ∉ available.
Proof.
  split.
  - intros Hnil c Hc Ha.
    assert (c ∈ valid_containers target available) as Hin
      by by apply elem_of_valid_containers.
    rewrite Hnil in Hin. by apply not_elem_of_nil in Hin.
  - intros Hno. destruct (valid_containers target available) as [|c l] eqn:E; [done|].
    assert (c ∈ valid_containers target available) as Hin by (rewrite E; left).
    apply elem_of_valid_containers in Hin as [? ?]. naive_solver.
Qed.

End Resolver.

Lemma valid_containers_greatest target available l :
  l `sublist_of` target → (∀ c, c ∈ l → c ∈ available) →
  l `sublist_of` valid_containers target available.
Proof.
  unfold valid_containers. induction 1 as [|x l1 l2 _ IH|x l1 l2 _ IH]; intros Hall.
  - done.
  - rewrite filter_cons_True by (apply Hall; left).
    apply sublist_skip, IH. intros c Hc. apply Hall. by right.
  - rewrite filter_cons. destruct (decide (x ∈ available)); [apply sublist_cons|]; auto.
Qed.

Lemma valid_containers_is_ordered_intersection target available :
  is_ordered_intersection target available (valid_containers target available).
Proof.
  split; [apply valid_containers_sublist|]. split.
  - intros c Hc. by apply elem_of_valid_containers in Hc as [_ ?].
  - intros l. apply valid_containers_greatest.
Qed.

(** The ordered intersection is unique. *)
Lemma is_ordered_intersection_unique target available v1 v2 :
  is_ordered_intersection target available v1 →
  is_ordered_intersection target available v2 → v1 = v2.
Proof.
  intros (S1 & A1 & G1) (S2 & A2 & G2).
  apply (anti_symm sublist); auto.
Qed.

Lemma get_target_containers_unset cfg w h :
  BLOB_CONTAINERS cfg = [] →
  get_target_containers cfg w h = ([], Raise err_not_set).
Proof. unfold get_target_containers, Printing.get_target_containers. fold_accepting. by intros ->. Qed.

Lemma get_target_containers_run cfg w h available :
  BLOB_CONTAINERS cfg ≠ [] →
  storage_answer w (h ++ [EvListContainers (STORAGE_CONN_STRING cfg)])
    (STORAGE_CONN_STRING cfg) = Return available →
  get_target_containers cfg w h =
    let listed := [EvListContainers (STORAGE_CONN_STRING cfg); EvLog (LogAvailable available)] in
    match valid_containers (target_names (BLOB_CONTAINERS cfg)) available with
    | [] => (listed, Raise err_no_valid)
    | valid => (listed ++ [EvLog (LogTargets valid)], Return valid)
    end.
Proof.
  intros Hset Hans. unfold get_target_containers, Printing.get_target_containers. fold_accepting.
  destruct (BLOB_CONTAINERS cfg) as [|c0 s0] eqn:E; [done|].
  unfold mbind, M_bind, list_containers, log, Printing.log, accepting. rewrite Hans. simpl.
  by destruct (valid_containers _ available).
Qed.

Lemma get_target_containers_storage_raises cfg w h e :
  BLOB_CONTAINERS cfg ≠ [] →
  storage_answer w (h ++ [EvListContainers (STORAGE_CONN_STRING cfg)])
    (STORAGE_CONN_STRING cfg) = Raise e →
  get_target_containers cfg w h =
    ([EvListContainers (STORAGE_CONN_STRING cfg)], Raise e).
Proof.
  intros Hset Hans. unfold get_target_containers, Printing.get_target_containers. fold_accepting.
  destruct (BLOB_CONTAINERS cfg) as [|c0 s0] eqn:E; [done|].
  unfold mbind, M_bind, list_containers. by rewrite Hans.
Qed.

Lemma load_config_allow_list env :
  BLOB_CONTAINERS (load_config env) = [] ↔ allow_list_absent_or_empty env.
Proof.
  unfold allow_list_absent_or_empty, load_config, getenv_default; cbn [BLOB_CONTAINERS].
  destruct (env !! lit "BLOB_CONTAINERS") as [v|]; split.
  - intros ->. by right.
  - by intros [?|[= ->]].
  - by left.
  - done.
Qed.

(** C1. For every allow-list and every list of available containers that
    the storage account reports, the resolver returns the ordered
    intersection of the configured names (the comma-separated entries,
    stripped) and the available names, in configured order; it returns
    whenever the allow-list is set and some configured name is available,
    and otherwise raises. With the allow-list a,b,c and the containers
    b, c, d it returns b, c in that order. *)
Theorem get_target_containers_ordered_intersection cfg w h available :
  storage_answer w (h ++ [EvListContainers (STORAGE_CONN_STRING cfg)])
    (STORAGE_CONN_STRING cfg) = Return available →
  let configured := target_names (BLOB_CONTAINERS cfg) in
  match outcome (get_target_containers cfg w h) with
  | Return valid =>
      is_ordered_intersection configured available valid ∧
      valid = valid_containers configured available
  | Raise e =>
      BLOB_CONTAINERS cfg = [] ∨ ∀ c, c ∈ configured → c ∉ available
  end ∧
  (BLOB_CONTAINERS cfg = lit "a,b,c" → available = [lit "b"; lit "c"; lit "d"] →
   outcome (get_target_containers cfg w h) = Return [lit "b"; lit "c"]).
Proof.
  intros Hans configured.
  destruct (decide (BLOB_CONTAINERS cfg = [])) as [Hunset|Hset].
  - rewrite get_target_containers_unset by done. split; [by left|].
    intros Habc. by rewrite Habc in Hunset.
  - rewrite (get_target_containers_run _ _ _ available) by done.
    fold configured. split.
    + destruct (valid_containers configured available) as [|c l] eqn:E; simpl.
      * right. by apply valid_containers_nil.
      * rewrite <- E. split; [apply valid_containers_is_ordered_intersection|done].
    + intros Habc ->. subst configured. by rewrite Habc.
Qed.

Lemma get_target_containers_ordered_intersection_witness :
  let cfg := load_config {[ lit "BLOB_CONTAINERS" := lit "a,b,c" ]} in
  let w := {| storage_answer := fun _ _ => Return [lit "b"; lit "c"; lit "d"];
              http_answer := fun _ _ => Raise (LibraryError []) |} in
  outcome (get_target_containers cfg w []) = Return [lit "b"; lit "c"].
Proof.
  intros cfg w.
  apply (get_target_containers_ordered_intersection cfg w [] [lit "b"; lit "c"; lit "d"]);
    reflexivity.
Defined.

(** C2. The resolver raises a ConfigurationError exactly when the
    allow-list is absent or empty, or no configured name is among the
    available containers; with the allow-list absent or empty it raises
    having emitted nothing, so before any call to the storage account. *)
Theorem get_target_containers_raises_iff env w h available :
  let cfg := load_config env in
  storage_answer w (h ++ [EvListContainers (STORAGE_CONN_STRING cfg)])
    (STORAGE_CONN_STRING cfg) = Return available →
  ((∃ e, outcome (get_target_containers cfg w h) = Raise e ∧ is_ConfigurationError e) ↔
   allow_list_absent_or_empty env ∨
   (∀ c, c ∈ target_names (BLOB_CONTAINERS cfg) → c ∉ available)) ∧
  (∀ e, outcome (get_target_containers cfg w h) = Raise e → is_ConfigurationError e) ∧
  (allow_list_absent_or_empty env →
   ∀ w' h', get_target_containers cfg w' h' = ([], Raise err_not_set)).
Proof.
  intros cfg Hans. rewrite <- load_config_allow_list. fold cfg.
  destruct (decide (BLOB_CONTAINERS cfg = [])) as [Hunset|Hset].
  - rewrite get_target_containers_unset by done. simpl. split; [|split].
    + split; [by left|]. intros _. exists err_not_set. split; [done|by left].
    + intros e [= <-]. by left.
    + intros _ w' h'. by apply get_target_containers_unset.
  - rewrite (get_target_containers_run _ _ _ available) by done.
    rewrite <- valid_containers_nil.
    destruct (valid_containers _ available) as [|c l] eqn:E; simpl; split; [|split| |split];
      try done.
    + split; [by right|]. intros _. exists err_no_valid. split; [done|by right].
    + intros e [= <-]. by right.
    + split; [by intros (e & [=] & _)|]. by intros [?|?].
Qed.

Lemma get_target_containers_raises_iff_witness :
  let env : Environ := {[ lit "BLOB_CONTAINERS" := lit "x" ]} in
  let w := {| storage_answer := fun _ _ => Return [lit "y"];
              http_answer := fun _ _ => Raise (LibraryError []) |} in
  ∃ e, outcome (get_target_containers (load_config env) w []) = Raise e ∧
       is_ConfigurationError e.
Proof.
  intros env w.
  apply (get_target_containers_raises_iff env w [] [lit "y"]); [reflexivity|].
  right. apply valid_containers_nil. reflexivity.
Defined.

(* ===================================================================== *)
(** ** Running computations *)
(* ===================================================================== *)

Lemma bind_Return {A B : Type} (m : M A) (k : A → M B) w h ev a :
  m w h = (ev, Return a) →
  (m ≫= k) w h = (ev ++ emitted (k a w (h ++ ev)), outcome (k a w (h ++ ev))).
Proof.
  intros Hm. unfold mbind, M_bind. rewrite Hm. by destruct (k a w (h ++ ev)).
Qed.

Lemma bind_Raise {A B : Type} (m : M A) (k : A → M B) w h ev e :
  m w h = (ev, Raise e) → (m ≫= k) w h = (ev, Raise e).
Proof. intros Hm. unfold mbind, M_bind. by rewrite Hm. Qed.

Lemma calls_app tr1 tr2 : calls (tr1 ++ tr2) = calls tr1 ++ calls tr2.
Proof. apply List.filter_app. Qed.

Lemma requests_app tr1 tr2 : requests (tr1 ++ tr2) = requests tr1 ++ requests tr2.
Proof. apply omap_app. Qed.

Lemma requests_calls tr : requests (calls tr) = requests tr.
Proof.
  induction tr as [|e tr IH]; [done|].
  destruct e; simpl; by rewrite ?IH.
Qed.

Lemma requests_map_EvRequest rs : requests (map EvRequest rs) = rs.
Proof. induction rs as [|r rs IH]; simpl; by rewrite ?IH. Qed.

(* ===================================================================== *)
(** ** The three write steps *)
(* ===================================================================== *)

Section Steps.

Context (cfg : Config) (w : World) (h : list Event).

Lemma create_search_index_answered response :
  http_answer w ((h ++ [EvLog LogCreatingIndex]) ++ [EvRequest (index_request cfg)])
    (index_request cfg) = Return response →
  create_search_index cfg w h =
    ([EvLog LogCreatingIndex; EvRequest (index_request cfg);
      EvLog (LogIndexResponse (status_code response) (text response))], Return tt).
Proof.
  intros Hans. unfold create_search_index, Printing.create_search_index,
    mbind, M_bind, log, Printing.log, accepting, send. by rewrite Hans.
Qed.

Lemma create_data_source_answered c response :
  http_answer w ((h ++ [EvLog (LogCreatingDataSource c)]) ++
                 [EvRequest (data_source_request cfg c)])
    (data_source_request cfg c) = Return response →
  create_data_source cfg c w h =
    ([EvLog (LogCreatingDataSource c); EvRequest (data_source_request cfg c);
      EvLog (LogDataSourceResponse (status_code response) (text response))], Return tt).
Proof.
  intros Hans. unfold create_data_source, Printing.create_data_source,
    mbind, M_bind, log, Printing.log, accepting, send. by rewrite Hans.
Qed.

Lemma create_indexer_answered c response :
  http_answer w ((h ++ [EvLog (LogCreatingIndexer c)]) ++
                 [EvRequest (indexer_request cfg c)])
    (indexer_request cfg c) = Return response →
  create_indexer cfg c w h =
    ([EvLog (LogCreatingIndexer c); EvRequest (indexer_request cfg c);
      EvLog (LogIndexerResponse (status_code response) (text response))], Return tt).
Proof.
  intros Hans. unfold create_indexer, Printing.create_indexer,
    mbind, M_bind, log, Printing.log, accepting, send. by rewrite Hans.
Qed.

Lemma create_search_index_unanswered e :
  http_answer w ((h ++ [EvLog LogCreatingIndex]) ++ [EvRequest (index_request cfg)])
    (index_request cfg) = Raise e →
  create_search_index cfg w h =
    ([EvLog LogCreatingIndex; EvRequest (index_request cfg)], Raise e).
Proof.
  intros Hans. unfold create_search_index, Printing.create_search_index,
    mbind, M_bind, log, Printing.log, accepting, send. by rewrite Hans.
Qed.

End Steps.

Lemma container_steps cfg w h c :
  transport_ok w →
  ∃ ev, (create_data_source cfg c;; create_indexer cfg c) w h = (ev, Return tt) ∧
        calls ev = map EvRequest (container_requests cfg c).
Proof.
  intros Hok.
  destruct (Hok ((h ++ [EvLog (LogCreatingDataSource c)]) ++
                 [EvRequest (data_source_request cfg c)]) (data_source_request cfg c))
    as [r1 H1].
  pose proof (create_data_source_answered cfg w h c r1 H1) as E1.
  set (ev1 := [EvLog (LogCreatingDataSource c); EvRequest (data_source_request cfg c);
               EvLog (LogDataSourceResponse (status_code r1) (text r1))]) in *.
  destruct (Hok (((h ++ ev1) ++ [EvLog (LogCreatingIndexer c)]) ++
                 [EvRequest (indexer_request cfg c)]) (indexer_request cfg c))
    as [r2 H2].
  pose proof (create_indexer_answered cfg w (h ++ ev1) c r2 H2) as E2.
  eexists. split.
  - rewrite (bind_Return _ _ _ _ _ _ E1), E2. reflexivity.
  - reflexivity.
Qed.

Lemma for_each_containers cfg w valid :
  transport_ok w →
  ∀ h, ∃ ev,
    for_each valid (fun c => create_data_source cfg c;; create_indexer cfg c) w h =
      (ev, Return tt) ∧
    calls ev = map EvRequest (flat_map (container_requests cfg) valid).
Proof.
  intros Hok. induction valid as [|c valid IH]; intros h.
  - by exists [].
  - destruct (container_steps cfg w h c Hok) as (ev1 & E1 & C1).
    destruct (IH (h ++ ev1)) as (ev2 & E2 & C2).
    exists (ev1 ++ ev2). split.
    + cbn [for_each]. by rewrite (bind_Return _ _ _ _ _ _ E1), E2.
    + rewrite calls_app, C1, C2. reflexivity.
Qed.

(* ===================================================================== *)
(** ** The orchestrator *)
(* ===================================================================== *)

Ltac run_step E :=
  rewrite (bind_Return _ _ _ _ _ _ E); cbn [emitted outcome fst snd].

Lemma log_run m w h : log m w h = ([EvLog m], Return tt).
Proof. reflexivity. Qed.

Lemma run_indexing_index_step cfg w h response :
  http_answer w (((h ++ [EvLog LogStart]) ++ [EvLog LogCreatingIndex]) ++
                 [EvRequest (index_request cfg)]) (index_request cfg) = Return response →
  let ev0 := [EvLog LogStart; EvLog LogCreatingIndex; EvRequest (index_request cfg);
              EvLog (LogIndexResponse (status_code response) (text response))] in
  let rest :=
    (containers ← get_target_containers cfg;
     for_each containers (fun c => create_data_source cfg c;; create_indexer cfg c);;
     log LogComplete;; mret (success_descriptor containers)) w (h ++ ev0) in
  run_indexing cfg w h = (ev0 ++ emitted rest, outcome rest).
Proof.
  intros H0 ev0 rest.
  pose proof (create_search_index_answered cfg w (h ++ [EvLog LogStart]) response H0) as E0.
  unfold run_indexing, Printing.run_indexing. fold_accepting.
  run_step (log_run LogStart w h). run_step E0.
  subst rest ev0. by rewrite <- !app_assoc.
Qed.

Lemma run_indexing_completes cfg w h available :
  transport_ok w →
  storage_lists w (STORAGE_CONN_STRING cfg) available →
  BLOB_CONTAINERS cfg ≠ [] →
  let valid := valid_containers (target_names (BLOB_CONTAINERS cfg)) available in
  valid ≠ [] →
  ∃ ev, run_indexing cfg w h = (ev, Return (success_descriptor valid)) ∧
        calls ev = EvRequest (index_request cfg) ::
                   EvListContainers (STORAGE_CONN_STRING cfg) ::
                   map EvRequest (flat_map (container_requests cfg) valid) ∧
        requests ev = index_request cfg :: flat_map (container_requests cfg) valid.
Proof.
  intros Hok Hst Hset valid Hvalid.
  destruct (Hok (((h ++ [EvLog LogStart]) ++ [EvLog LogCreatingIndex]) ++
                 [EvRequest (index_request cfg)]) (index_request cfg)) as [r0 H0].
  rewrite (run_indexing_index_step cfg w h r0 H0).
  set (ev0 := [EvLog LogStart; _; _; _]).
  pose proof (get_target_containers_run cfg w (h ++ ev0) available Hset (Hst _)) as E1.
  fold valid in E1. cbn zeta in E1.
  destruct valid as [|c0 l0] eqn:Ev; [done|]. rewrite <- Ev in *. clear Hvalid.
  set (ev1 := [EvListContainers _; EvLog (LogAvailable available)] ++ [EvLog (LogTargets valid)]) in *.
  destruct (for_each_containers cfg w valid Hok ((h ++ ev0) ++ ev1)) as (ev2 & E2 & C2).
  run_step E1. run_step E2.
  run_step (log_run LogComplete w (((h ++ ev0) ++ ev1) ++ ev2)).
  eexists. split; [reflexivity|].
  match goal with |- calls ?ev = ?c ∧ _ => assert (calls ev = c) as Hcalls end.
  { rewrite !calls_app, C2. subst ev0 ev1.
    cbn [calls List.filter is_call app]. by rewrite app_nil_r. }
  split; [exact Hcalls|].
  rewrite <- requests_calls, Hcalls.
  change (requests (_ :: _ :: ?l)) with (index_request cfg :: requests l).
  by rewrite requests_map_EvRequest.
Qed.

Lemma run_indexing_aborts cfg w h response :
  http_answer w (((h ++ [EvLog LogStart]) ++ [EvLog LogCreatingIndex]) ++
                 [EvRequest (index_request cfg)]) (index_request cfg) = Return response →
  (BLOB_CONTAINERS cfg = [] ∨
   ∃ available, storage_lists w (STORAGE_CONN_STRING cfg) available ∧
                valid_containers (target_names (BLOB_CONTAINERS cfg)) available = []) →
  ∃ ev e, run_indexing cfg w h = (ev, Raise e) ∧ is_ConfigurationError e ∧
          requests ev = [index_request cfg].
Proof.
  intros H0 Hcase.
  rewrite (run_indexing_index_step cfg w h response H0).
  set (ev0 := [EvLog LogStart; _; _; _]).
  destruct (decide (BLOB_CONTAINERS cfg = [])) as [Hunset|Hset].
  - rewrite (bind_Raise _ _ _ _ _ _ (get_target_containers_unset cfg w (h ++ ev0) Hunset)).
    eexists _, _. split; [reflexivity|]. split; [by left|reflexivity].
  - destruct Hcase as [?|(available & Hst & Hnil)]; [done|].
    pose proof (get_target_containers_run cfg w (h ++ ev0) available Hset (Hst _)) as E1.
    rewrite Hnil in E1. cbn zeta in E1.
    rewrite (bind_Raise _ _ _ _ _ _ E1).
    eexists _, _. split; [reflexivity|]. split; [by right|reflexivity].
Qed.

Lemma expected_requests_set cfg available :
  BLOB_CONTAINERS cfg ≠ [] →
  expected_requests cfg available =
    index_request cfg ::
    flat_map (container_requests cfg)
      (valid_containers (target_names (BLOB_CONTAINERS cfg)) available).
Proof. unfold expected_requests. by destruct (BLOB_CONTAINERS cfg). Qed.

Lemma run_indexing_requests cfg w h available :
  transport_ok w →
  storage_lists w (STORAGE_CONN_STRING cfg) available →
  requests (emitted (run_indexing cfg w h)) = expected_requests cfg available.
Proof.
  intros Hok Hst. unfold expected_requests.
  set (valid := valid_containers (target_names (BLOB_CONTAINERS cfg)) available).
  destruct (Hok (((h ++ [EvLog LogStart]) ++ [EvLog LogCreatingIndex]) ++
                 [EvRequest (index_request cfg)]) (index_request cfg)) as [r0 H0].
  destruct (decide (BLOB_CONTAINERS cfg = [])) as [Hunset|Hset].
  - destruct (run_indexing_aborts cfg w h r0 H0) as (ev & e & -> & _ & Hreqs); [by left|].
    by rewrite Hunset.
  - destruct (decide (valid = [])) as [Hnil|Hvalid].
    + destruct (run_indexing_aborts cfg w h r0 H0) as (ev & e & -> & _ & Hreqs);
        [right; by exists available|].
      rewrite Hnil. cbn [emitted fst flat_map]. rewrite Hreqs.
      by destruct (BLOB_CONTAINERS cfg).
    + destruct (run_indexing_completes cfg w h available Hok Hst Hset Hvalid)
        as (ev & -> & _ & Hreqs).
      cbn [emitted fst]. rewrite Hreqs. fold valid.
      by destruct (BLOB_CONTAINERS cfg).
Qed.

(* ===================================================================== *)
(** ** Telling the requests apart *)
(* ===================================================================== *)

Section Resources.

Context (cfg : Config).

Lemma resource_of_index_request : resource_of cfg (index_request cfg) = Some Index.
Proof.
  unfold resource_of, index_request; cbn [url]. by rewrite strip_prefix_app.
Qed.

Lemma resource_of_data_source_request c :
  resource_of cfg (data_source_request cfg c) = Some DataSource.
Proof.
  unfold resource_of, data_source_request; cbn [url]. by rewrite strip_prefix_app.
Qed.

Lemma resource_of_indexer_request c :
  resource_of cfg (indexer_request cfg c) = Some Indexer.
Proof.
  unfold resource_of, indexer_request; cbn [url]. by rewrite strip_prefix_app.
Qed.

Lemma count_resource_cons k r rs :
  count_resource cfg k (r :: rs) =
    (if decide (resource_of cfg r = Some k) then 1 else 0) + count_resource cfg k rs.
Proof.
  unfold count_resource. rewrite filter_cons. by destruct (decide _).
Qed.

Lemma count_resource_containers k valid :
  count_resource cfg k (flat_map (container_requests cfg) valid) =
    match k with
    | Index => 0
    | DataSource | Indexer => length valid
    end.
Proof.
  induction valid as [|c valid IH]; [by destruct k|].
  cbn [flat_map container_requests app].
  rewrite !count_resource_cons, IH,
    resource_of_data_source_request, resource_of_indexer_request.
  by destruct k.
Qed.

Lemma length_container_requests valid :
  length (flat_map (container_requests cfg) valid) = 2 * length valid.
Proof. induction valid as [|c valid IH]; simpl in *; lia. Qed.

End Resources.

(** C3. A run in which every request is answered and the resolver finds
    the containers [valid] calls out in this order: the index request, the
    enumeration of the storage containers, then for each container of
    [valid] its data-source request followed by its indexer request. It
    sends exactly one index request, one data-source request and one
    indexer request per container, and returns the success descriptor
    that lists [valid]. *)
Theorem run_indexing_sequence cfg w h available :
  transport_ok w →
  storage_lists w (STORAGE_CONN_STRING cfg) available →
  BLOB_CONTAINERS cfg ≠ [] →
  let valid := valid_containers (target_names (BLOB_CONTAINERS cfg)) available in
  valid ≠ [] →
  let run := run_indexing cfg w h in
  outcome run =
    Return (JDict [(lit "status", JStr (lit "success"));
                   (lit "containers", JList (map JStr valid))]) ∧
  calls (emitted run) =
    EvRequest (index_request cfg) ::
    EvListContainers (STORAGE_CONN_STRING cfg) ::
    map EvRequest
      (flat_map (fun c => [data_source_request cfg c; indexer_request cfg c]) valid) ∧
  count_resource cfg Index (requests (emitted run)) = 1 ∧
  count_resource cfg DataSource (requests (emitted run)) = length valid ∧
  count_resource cfg Indexer (requests (emitted run)) = length valid ∧
  length (requests (emitted run)) = 1 + 2 * length valid.
Proof.
  intros Hok Hst Hset valid Hvalid run.
  destruct (run_indexing_completes cfg w h available Hok Hst Hset Hvalid)
    as (ev & Hrun & Hcalls & Hreqs).
  fold valid in Hrun, Hcalls, Hreqs. subst run. rewrite Hrun. cbn [emitted outcome fst snd].
  split; [done|]. split; [done|]. rewrite Hreqs.
  rewrite !count_resource_cons, !count_resource_containers, resource_of_index_request.
  cbn [length]. rewrite length_container_requests.
  repeat split; lia.
Qed.

Lemma run_indexing_sequence_witness :
  let cfg := load_config {[ lit "BLOB_CONTAINERS" := lit "invoices,receipts" ]} in
  let w := {| storage_answer := fun _ _ =>
                Return [lit "receipts"; lit "archive"; lit "invoices"];
              http_answer := fun _ _ =>
                Return {| status_code := 201; text := lit "created" |} |} in
  let run := run_indexing cfg w [] in
  outcome run =
    Return (JDict [(lit "status", JStr (lit "success"));
                   (lit "containers", JList [JStr (lit "invoices"); JStr (lit "receipts")])]) ∧
  count_resource cfg Index (requests (emitted run)) = 1 ∧
  count_resource cfg DataSource (requests (emitted run)) = 2 ∧
  count_resource cfg Indexer (requests (emitted run)) = 2.
Proof.
  intros cfg w run.
  destruct (run_indexing_sequence cfg w []
              [lit "receipts"; lit "archive"; lit "invoices"])
    as (Hout & _ & Hi & Hd & Hx & _).
  - intros h r. eexists. reflexivity.
  - intros h. reflexivity.
  - vm_compute. discriminate.
  - vm_compute. discriminate.
  - exact (conj Hout (conj Hi (conj Hd Hx))).
Defined.

(* ===================================================================== *)
(** ** The request handler *)
(* ===================================================================== *)



(* ===================================================================== *)
(** ** Names and addresses of the resources *)
(* ===================================================================== *)

Lemma requests_create_search_index cfg w h :
  requests (emitted (create_search_index cfg w h)) = [index_request cfg].
Proof.
  unfold create_search_index, Printing.create_search_index,
    mbind, M_bind, log, Printing.log, accepting, send.
  by destruct (http_answer w _ _).
Qed.

Lemma requests_create_data_source cfg c w h :
  requests (emitted (create_data_source cfg c w h)) = [data_source_request cfg c].
Proof.
  unfold create_data_source, Printing.create_data_source,
    mbind, M_bind, log, Printing.log, accepting, send.
  by destruct (http_answer w _ _).
Qed.

Lemma requests_create_indexer cfg c w h :
  requests (emitted (create_indexer cfg c w h)) = [indexer_request cfg c].
Proof.
  unfold create_indexer, Printing.create_indexer,
    mbind, M_bind, log, Printing.log, accepting, send.
  by destruct (http_answer w _ _).
Qed.

Lemma url_data_source_request cfg c :
  url (data_source_request cfg c) = resource_url cfg (lit "datasources") (c ++ lit "-ds").
Proof.
  unfold data_source_request, resource_url; cbn [url]. by rewrite <- !app_assoc.
Qed.

Lemma url_indexer_request cfg c :
  url (indexer_request cfg c) = resource_url cfg (lit "indexers") (c ++ lit "-idx").
Proof.
  unfold indexer_request, resource_url; cbn [url]. by rewrite <- !app_assoc.
Qed.

(** C5. For every container name [c]: the data-source registrar sends its
    request to the resource [c-ds] of the data sources and names the
    payload [c-ds]; the indexer registrar sends its request to the
    resource [c-idx] of the indexers and names the payload [c-idx]; the
    indexer payload's dataSourceName is [c-ds] and its targetIndexName is
    the name of the index that the schema step declares. *)
Theorem registrar_names cfg c w h :
  requests (emitted (create_data_source cfg c w h)) = [data_source_request cfg c] ∧
  url (data_source_request cfg c) =
    format (SEARCH_ENDPOINT cfg) ++ lit "/datasources/" ++ (c ++ lit "-ds") ++
    lit "?api-version=2024-07-01" ∧
  field (lit "name") (json (data_source_request cfg c)) = Some (JStr (c ++ lit "-ds")) ∧
  requests (emitted (create_indexer cfg c w h)) = [indexer_request cfg c] ∧
  url (indexer_request cfg c) =
    format (SEARCH_ENDPOINT cfg) ++ lit "/indexers/" ++ (c ++ lit "-idx") ++
    lit "?api-version=2024-07-01" ∧
  field (lit "name") (json (indexer_request cfg c)) = Some (JStr (c ++ lit "-idx")) ∧
  field (lit "dataSourceName") (json (indexer_request cfg c)) =
    field (lit "name") (json (data_source_request cfg c)) ∧
  field (lit "targetIndexName") (json (indexer_request cfg c)) =
    field (lit "name") (json (index_request cfg)) ∧
  field (lit "name") (json (index_request cfg)) = Some (JStr (lit "financial-index")).
Proof.
  split; [apply requests_create_data_source|].
  split; [unfold data_source_request; cbn [url]; by rewrite <- !app_assoc|].
  split; [done|].
  split; [apply requests_create_indexer|].
  split; [unfold indexer_request; cbn [url]; by rewrite <- !app_assoc|].
  done.
Qed.

(* ===================================================================== *)
(** ** The write steps and the standard output *)
(* ===================================================================== *)

Lemma log_printed (out : Stdout) m w h :
  out h m = Return tt → Printing.log out m w h = ([EvLog m], Return tt).
Proof. intros H. unfold Printing.log. by rewrite H. Qed.

Lemma log_not_printed (out : Stdout) m w h e :
  out h m = Raise e → Printing.log out m w h = ([], Raise e).
Proof. intros H. unfold Printing.log. by rewrite H. Qed.

Lemma send_answered r w h response :
  http_answer w (h ++ [EvRequest r]) r = Return response →
  send r w h = ([EvRequest r], Return response).
Proof. intros H. unfold send. by rewrite H. Qed.

Section Printed.

Context (out : Stdout) (cfg : Config) (w : World) (h : list Event).

(** A write step whose request is answered and whose two lines are
    written returns, whatever the status of the response. *)
Lemma create_search_index_printed response :
  let h1 := (h ++ [EvLog LogCreatingIndex]) ++ [EvRequest (index_request cfg)] in
  let line := LogIndexResponse (status_code response) (text response) in
  out h LogCreatingIndex = Return tt →
  http_answer w h1 (index_request cfg) = Return response →
  out h1 line = Return tt →
  Printing.create_search_index out cfg w h =
    ([EvLog LogCreatingIndex; EvRequest (index_request cfg); EvLog line], Return tt).
Proof.
  intros h1 line H1 Hans H2. subst h1 line. unfold Printing.create_search_index.
  run_step (log_printed out _ w h H1). run_step (send_answered _ w _ _ Hans).
  by rewrite (log_printed out _ w _ H2).
Qed.

Lemma create_search_index_not_printed response e :
  let h1 := (h ++ [EvLog LogCreatingIndex]) ++ [EvRequest (index_request cfg)] in
  out h LogCreatingIndex = Return tt →
  http_answer w h1 (index_request cfg) = Return response →
  out h1 (LogIndexResponse (status_code response) (text response)) = Raise e →
  Printing.create_search_index out cfg w h =
    ([EvLog LogCreatingIndex; EvRequest (index_request cfg)], Raise e).
Proof.
  intros h1 H1 Hans H2. subst h1. unfold Printing.create_search_index.
  run_step (log_printed out _ w h H1). run_step (send_answered _ w _ _ Hans).
  by rewrite (log_not_printed out _ w _ e H2).
Qed.

Lemma create_data_source_not_printed c response e :
  let h1 := (h ++ [EvLog (LogCreatingDataSource c)]) ++
            [EvRequest (data_source_request cfg c)] in
  out h (LogCreatingDataSource c) = Return tt →
  http_answer w h1 (data_source_request cfg c) = Return response →
  out h1 (LogDataSourceResponse (status_code response) (text response)) = Raise e →
  Printing.create_data_source out cfg c w h =
    ([EvLog (LogCreatingDataSource c); EvRequest (data_source_request cfg c)], Raise e).
Proof.
  intros h1 H1 Hans H2. subst h1. unfold Printing.create_data_source.
  run_step (log_printed out _ w h H1). run_step (send_answered _ w _ _ Hans).
  by rewrite (log_not_printed out _ w _ e H2).
Qed.

Lemma create_indexer_not_printed c response e :
  let h1 := (h ++ [EvLog (LogCreatingIndexer c)]) ++
            [EvRequest (indexer_request cfg c)] in
  out h (LogCreatingIndexer c) = Return tt →
  http_answer w h1 (indexer_request cfg c) = Return response →
  out h1 (LogIndexerResponse (status_code response) (text response)) = Raise e →
  Printing.create_indexer out cfg c w h =
    ([EvLog (LogCreatingIndexer c); EvRequest (indexer_request cfg c)], Raise e).
Proof.
  intros h1 H1 Hans H2. subst h1. unfold Printing.create_indexer.
  run_step (log_printed out _ w h H1). run_step (send_answered _ w _ _ Hans).
  by rewrite (log_not_printed out _ w _ e H2).
Qed.

End Printed.

(** C6 fails on the code. A write step does not look at the status of the
    response, but it prints the status and the body, and [print] can
    raise (the body holds a character that the encoding of the standard
    output lacks). Then the step raises on a response: each of the three
    steps raises what [print] raised, whatever follows the step is not
    run, and a run whose index response cannot be printed stops before the
    allow-list is read and the storage account consulted. *)
Theorem write_step_raises_when_response_not_printed out cfg c w h response e :
  (let h1 := (h ++ [EvLog LogCreatingIndex]) ++ [EvRequest (index_request cfg)] in
   out h LogCreatingIndex = Return tt →
   http_answer w h1 (index_request cfg) = Return response →
   out h1 (LogIndexResponse (status_code response) (text response)) = Raise e →
   Printing.create_search_index out cfg w h =
     ([EvLog LogCreatingIndex; EvRequest (index_request cfg)], Raise e) ∧
   ∀ (B : Type) (k : unit → M B),
     (Printing.create_search_index out cfg ≫= k) w h =
       ([EvLog LogCreatingIndex; EvRequest (index_request cfg)], Raise e)) ∧
  (let h1 := (h ++ [EvLog (LogCreatingDataSource c)]) ++
             [EvRequest (data_source_request cfg c)] in
   out h (LogCreatingDataSource c) = Return tt →
   http_answer w h1 (data_source_request cfg c) = Return response →
   out h1 (LogDataSourceResponse (status_code response) (text response)) = Raise e →
   Printing.create_data_source out cfg c w h =
     ([EvLog (LogCreatingDataSource c); EvRequest (data_source_request cfg c)], Raise e) ∧
   ∀ (B : Type) (k : unit → M B),
     (Printing.create_data_source out cfg c ≫= k) w h =
       ([EvLog (LogCreatingDataSource c); EvRequest (data_source_request cfg c)],
        Raise e)) ∧
  (let h1 := (h ++ [EvLog (LogCreatingIndexer c)]) ++
             [EvRequest (indexer_request cfg c)] in
   out h (LogCreatingIndexer c) = Return tt →
   http_answer w h1 (indexer_request cfg c) = Return response →
   out h1 (LogIndexerResponse (status_code response) (text response)) = Raise e →
   Printing.create_indexer out cfg c w h =
     ([EvLog (LogCreatingIndexer c); EvRequest (indexer_request cfg c)], Raise e) ∧
   ∀ (B : Type) (k : unit → M B),
     (Printing.create_indexer out cfg c ≫= k) w h =
       ([EvLog (LogCreatingIndexer c); EvRequest (indexer_request cfg c)], Raise e)) ∧
  (let h0 := h ++ [EvLog LogStart] in
   let h1 := (h0 ++ [EvLog LogCreatingIndex]) ++ [EvRequest (index_request cfg)] in
   out h LogStart = Return tt →
   out h0 LogCreatingIndex = Return tt →
   http_answer w h1 (index_request cfg) = Return response →
   out h1 (LogIndexResponse (status_code response) (text response)) = Raise e →
   Printing.run_indexing out cfg w h =
     ([EvLog LogStart; EvLog LogCreatingIndex; EvRequest (index_request cfg)], Raise e)).
Proof.
  split; [|split; [|split]].
  - intros h1 H1 Hans H2.
    pose proof (create_search_index_not_printed out cfg w h response e H1 Hans H2) as E.
    split; [done|]. intros B k. by apply bind_Raise.
  - intros h1 H1 Hans H2.
    pose proof (create_data_source_not_printed out cfg w h c response e H1 Hans H2) as E.
    split; [done|]. intros B k. by apply bind_Raise.
  - intros h1 H1 Hans H2.
    pose proof (create_indexer_not_printed out cfg w h c response e H1 Hans H2) as E.
    split; [done|]. intros B k. by apply bind_Raise.
  - intros h0 h1 Hstart H1 Hans H2.
    pose proof (create_search_index_not_printed out cfg w h0 response e H1 Hans H2) as E.
    unfold Printing.run_indexing.
    run_step (log_printed out _ w h Hstart). fold h0. by rewrite (bind_Raise _ _ _ _ _ _ E).
Qed.

Lemma write_step_raises_when_response_not_printed_witness :
  let cfg := load_config {[ lit "BLOB_CONTAINERS" := lit "invoices" ]} in
  let unavailable := {| status_code := 503; text := [8217%N] |} in
  let e := LibraryError (lit "'ascii' codec can't encode character") in
  let out : Stdout := fun _ m =>
    match m with
    | LogIndexResponse _ body =>
        if forallb (fun c => (c <? 128)%N) body then Return tt else Raise e
    | _ => Return tt
    end in
  let w := {| storage_answer := fun _ _ => Return [lit "invoices"];
              http_answer := fun _ _ => Return unavailable |} in
  Printing.create_search_index out cfg w [] =
    ([EvLog LogCreatingIndex; EvRequest (index_request cfg)], Raise e) ∧
  Printing.run_indexing out cfg w [] =
    ([EvLog LogStart; EvLog LogCreatingIndex; EvRequest (index_request cfg)], Raise e).
Proof.
  intros cfg unavailable e out w.
  destruct (write_step_raises_when_response_not_printed out cfg (lit "invoices") w []
              unavailable e) as (Hstep & _ & _ & Hrun).
  split.
  - apply Hstep; reflexivity.
  - apply Hrun; reflexivity.
Defined.

(* ===================================================================== *)
(** ** Upserts *)
(* ===================================================================== *)

Lemma is_upsert_data_source_request cfg c :
  is_upsert cfg (lit "datasources") (data_source_request cfg c) = true.
Proof.
  unfold is_upsert.
  change (field (lit "name") (json (data_source_request cfg c)))
    with (Some (JStr (c ++ lit "-ds"))).
  cbn [method data_source_request]. apply bool_decide_eq_true_2, url_data_source_request.
Qed.

Lemma is_upsert_indexer_request cfg c :
  is_upsert cfg (lit "indexers") (indexer_request cfg c) = true.
Proof.
  unfold is_upsert.
  change (field (lit "name") (json (indexer_request cfg c)))
    with (Some (JStr (c ++ lit "-idx"))).
  cbn [method indexer_request]. apply bool_decide_eq_true_2, url_indexer_request.
Qed.

(** C7 fails on the code for the index schema write. The data-source and
    the indexer writes are [PUT] requests addressed to the resource that
    their payload names; the schema step instead sends a [POST] to the
    collection of indexes, whose URL does not name the index: it asks for
    a creation, not for a creation or update. *)
Theorem create_search_index_is_not_an_upsert cfg w h :
  requests (emitted (create_search_index cfg w h)) = [index_request cfg] ∧
  method (index_request cfg) = POST ∧
  url (index_request cfg) =
    format (SEARCH_ENDPOINT cfg) ++ lit "/indexes?api-version=2024-07-01" ∧
  url (index_request cfg) ≠ resource_url cfg (lit "indexes") index_name ∧
  (∀ collection, is_upsert cfg collection (index_request cfg) = false) ∧
  (∀ c, is_upsert cfg (lit "datasources") (data_source_request cfg c) = true ∧
        is_upsert cfg (lit "indexers") (indexer_request cfg c) = true).
Proof.
  split; [apply requests_create_search_index|].
  split; [done|]. split; [done|]. split; [|split].
  - unfold index_request, resource_url; cbn [url]. intros H.
    apply app_inv_head in H. vm_compute in H. discriminate.
  - done.
  - intros c. split; [apply is_upsert_data_source_request|apply is_upsert_indexer_request].
Qed.

(* ===================================================================== *)
(** ** Two runs *)
(* ===================================================================== *)

Lemma container_steps_requests cfg w h c :
  let o := (create_data_source cfg c;; create_indexer cfg c) w h in
  requests (emitted o) `prefix_of` container_requests cfg c ∧
  (outcome o = Return tt → requests (emitted o) = container_requests cfg c).
Proof.
  unfold create_data_source, Printing.create_data_source, create_indexer, Printing.create_indexer,
    mbind, M_bind, log, Printing.log, accepting, send. cbn zeta.
  destruct (http_answer w _ (data_source_request cfg c)) as [r1|e1]; cbn.
  - destruct (http_answer w _ (indexer_request cfg c)) as [r2|e2]; cbn; by split.
  - split; [|done]. by exists [indexer_request cfg c].
Qed.

Lemma for_each_requests cfg w valid :
  ∀ h,
    let o := for_each valid
               (fun c => create_data_source cfg c;; create_indexer cfg c) w h in
    requests (emitted o) `prefix_of` flat_map (container_requests cfg) valid ∧
    (outcome o = Return tt →
     requests (emitted o) = flat_map (container_requests cfg) valid).
Proof.
  induction valid as [|c valid IH]; intros h; [by split|].
  cbn [for_each flat_map].
  destruct (container_steps_requests cfg w h c) as [Hpre Hret].
  destruct ((create_data_source cfg c;; create_indexer cfg c) w h) as [ev1 [[]|e1]] eqn:E1;
    cbn [emitted outcome fst snd] in *.
  - rewrite (bind_Return _ _ _ _ _ _ E1). cbn [emitted outcome fst snd].
    destruct (IH (h ++ ev1)) as [IHpre IHret].
    rewrite requests_app, Hret by done. split.
    + by apply prefix_app.
    + intros Hout. by rewrite IHret.
  - rewrite (bind_Raise _ _ _ _ _ _ E1). cbn [emitted outcome fst snd].
    split; [|done]. by apply prefix_app_r.
Qed.

Lemma run_indexing_requests_prefix cfg w h available :
  storage_lists w (STORAGE_CONN_STRING cfg) available →
  requests (emitted (run_indexing cfg w h)) `prefix_of` expected_requests cfg available.
Proof.
  intros Hst.
  destruct (http_answer w (((h ++ [EvLog LogStart]) ++ [EvLog LogCreatingIndex]) ++
                           [EvRequest (index_request cfg)]) (index_request cfg))
    as [r0|e0] eqn:H0.
  - rewrite (run_indexing_index_step cfg w h r0 H0). cbn [emitted fst].
    set (ev0 := [EvLog LogStart; _; _; _]).
    rewrite requests_app. change (requests ev0) with [index_request cfg].
    apply (prefix_app [index_request cfg]).
    destruct (decide (BLOB_CONTAINERS cfg = [])) as [Hunset|Hset].
    + rewrite (bind_Raise _ _ _ _ _ _ (get_target_containers_unset cfg w (h ++ ev0) Hunset)).
      apply prefix_nil.
    + pose proof (get_target_containers_run cfg w (h ++ ev0) available Hset (Hst _)) as E1.
      cbn zeta in E1.
      destruct (BLOB_CONTAINERS cfg) as [|c0 s0] eqn:E; [done|]. rewrite <- E in *.
      destruct (valid_containers (target_names (BLOB_CONTAINERS cfg)) available)
        as [|v0 vs] eqn:Ev.
      * rewrite (bind_Raise _ _ _ _ _ _ E1). apply prefix_nil.
      * rewrite <- Ev in *. run_step E1.
        rewrite requests_app.
        match goal with |- requests ?l ++ _ `prefix_of` _ =>
          change (requests l) with (@nil Request) end.
        cbn [app].
        match goal with |- context [(for_each ?v ?b ≫= _) w ?h'] =>
          destruct (for_each_requests cfg w v h') as [Hpre Hret];
          destruct (for_each v b w h') as [ev2 [[]|e2]] eqn:E2
        end; cbn [emitted outcome fst snd] in *.
        -- run_step E2. rewrite requests_app, Hret by done.
           by rewrite app_nil_r.
        -- by rewrite (bind_Raise _ _ _ _ _ _ E2).
  - unfold run_indexing, Printing.run_indexing. fold_accepting.
    run_step (log_run LogStart w h).
    rewrite (bind_Raise _ _ _ _ _ _
               (create_search_index_unanswered cfg w (h ++ [EvLog LogStart]) e0 H0)).
    unfold expected_requests. by eexists.
Qed.

(** C8. Two runs with the same configuration in which the storage account
    lists the same containers send the same requests, the same URLs,
    methods, headers and bodies in the same order, whatever happened
    before each run and whatever the search service answers: as long as
    both runs last, the i-th request of one is the i-th request of the
    other, and when every request is answered the two sequences of
    requests are equal. No request depends on an earlier run. *)
Theorem run_indexing_requests_repeatable cfg available w1 h1 w2 h2 :
  storage_lists w1 (STORAGE_CONN_STRING cfg) available →
  storage_lists w2 (STORAGE_CONN_STRING cfg) available →
  let sent1 := requests (emitted (run_indexing cfg w1 h1)) in
  let sent2 := requests (emitted (run_indexing cfg w2 h2)) in
  (∀ i r1 r2, sent1 !! i = Some r1 → sent2 !! i = Some r2 → r1 = r2) ∧
  (transport_ok w1 → transport_ok w2 → sent1 = sent2).
Proof.
  intros Hst1 Hst2 sent1 sent2. split.
  - intros i r1 r2 Hr1 Hr2.
    pose proof (run_indexing_requests_prefix cfg w1 h1 available Hst1) as P1.
    pose proof (run_indexing_requests_prefix cfg w2 h2 available Hst2) as P2.
    pose proof (prefix_lookup_Some _ _ _ _ Hr1 P1) as L1.
    pose proof (prefix_lookup_Some _ _ _ _ Hr2 P2) as L2.
    congruence.
  - intros Hok1 Hok2. subst sent1 sent2.
    by rewrite (run_indexing_requests cfg w1 h1 available),
               (run_indexing_requests cfg w2 h2 available).
Qed.

Lemma run_indexing_requests_repeatable_witness :
  let cfg := load_config {[ lit "BLOB_CONTAINERS" := lit "invoices,receipts";
                            lit "AZURE_SEARCH_ENDPOINT" := lit "https://s.example" ]} in
  let created := {| status_code := 201; text := lit "created" |} in
  let no_content := {| status_code := 204; text := [] |} in
  let w1 := {| storage_answer := fun _ _ => Return [lit "invoices"; lit "receipts"];
               http_answer := fun _ _ => Return created |} in
  let w2 := {| storage_answer := fun _ _ => Return [lit "invoices"; lit "receipts"];
               http_answer := fun _ _ => Return no_content |} in
  requests (emitted (run_indexing cfg w1 [])) =
  requests (emitted (run_indexing cfg w2 (emitted (run_indexing cfg w1 [])))).
Proof.
  intros cfg created no_content w1 w2.
  apply (run_indexing_requests_repeatable cfg [lit "invoices"; lit "receipts"]
           w1 [] w2 (emitted (run_indexing cfg w1 []))).
  - intros h. reflexivity.
  - intros h. reflexivity.
  - intros h r. exists created. reflexivity.
  - intros h r. exists no_content. reflexivity.
Defined.

(* ===================================================================== *)
(** ** The error path *)
(* ===================================================================== *)

(** C9. When the allow-list is absent or empty, or no configured name is
    among the containers that the storage account lists, a run whose
    index request was answered aborts with a ConfigurationError, and by
    then it has sent exactly one request, the index request: no
    data-source request and no indexer request. *)
Theorem run_indexing_aborts_after_index_request env w h response :
  let cfg := load_config env in
  http_answer w (((h ++ [EvLog LogStart]) ++ [EvLog LogCreatingIndex]) ++
                 [EvRequest (index_request cfg)]) (index_request cfg) = Return response →
  (allow_list_absent_or_empty env ∨
   ∃ available, storage_lists w (STORAGE_CONN_STRING cfg) available ∧
                ∀ c, c ∈ target_names (BLOB_CONTAINERS cfg) → c ∉ available) →
  let run := run_indexing cfg w h in
  (∃ e, outcome run = Raise e ∧ is_ConfigurationError e) ∧
  requests (emitted run) = [index_request cfg] ∧
  count_resource cfg Index (requests (emitted run)) = 1 ∧
  count_resource cfg DataSource (requests (emitted run)) = 0 ∧
  count_resource cfg Indexer (requests (emitted run)) = 0.
Proof.
  intros cfg H0 Hcase run.
  destruct (run_indexing_aborts cfg w h response H0) as (ev & e & Hrun & He & Hreqs).
  - destruct Hcase as [Habs|(available & Hst & Hnone)].
    + left. by apply load_config_allow_list.
    + right. exists available. split; [done|]. by apply valid_containers_nil.
  - subst run. rewrite Hrun. cbn [emitted outcome fst snd]. rewrite Hreqs.
    split; [by exists e|]. split; [done|].
    rewrite !count_resource_cons, resource_of_index_request.
    by repeat split.
Qed.

Lemma run_indexing_aborts_after_index_request_witness :
  let env : Environ := {[ lit "AZURE_SEARCH_ENDPOINT" := lit "https://s.example" ]} in
  let w := {| storage_answer := fun _ _ => Return [lit "invoices"];
              http_answer := fun _ _ => Return {| status_code := 201; text := [] |} |} in
  requests (emitted (run_indexing (load_config env) w [])) =
    [index_request (load_config env)].
Proof.
  intros env w.
  apply (run_indexing_aborts_after_index_request env w []
           {| status_code := 201; text := [] |}).
  - reflexivity.
  - left. left. reflexivity.
Defined.

(* ===================================================================== *)
(** ** Repeated names *)
(* ===================================================================== *)

Lemma occurrences_cons c x l :
  occurrences c (x :: l) = (if decide (x = c) then 1 else 0) + occurrences c l.
Proof. unfold occurrences. rewrite filter_cons. by destruct (decide _). Qed.

Lemma count_url_cons u r rs :
  count_url u (r :: rs) = (if decide (url r = u) then 1 else 0) + count_url u rs.
Proof. unfold count_url. rewrite filter_cons. by destruct (decide _). Qed.

Lemma occurrences_valid_containers target available c :
  c ∈ available →
  occurrences c (valid_containers target available) = occurrences c target.
Proof.
  intros Hc. unfold valid_containers.
  induction target as [|x target IH]; [done|].
  rewrite filter_cons, (occurrences_cons c x target).
  destruct (decide (x ∈ available)) as [Hx|Hx].
  - by rewrite occurrences_cons, IH.
  - rewrite IH. destruct (decide (x = c)) as [->|]; done.
Qed.

Lemma occurrences_target_names c s :
  occurrences c (target_names s) =
    length (filter (fun entry => strip entry = c) (split comma s)).
Proof.
  unfold target_names. induction (split comma s) as [|x l IH]; [done|].
  cbn [map]. rewrite occurrences_cons, filter_cons, IH.
  by destruct (decide (strip x = c)).
Qed.

Section Urls.

Context (cfg : Config).

Lemma url_data_source_request_inj c c' :
  url (data_source_request cfg c') = url (data_source_request cfg c) ↔ c' = c.
Proof.
  split; [|by intros ->]. unfold data_source_request; cbn [url]. intros H.
  do 2 apply app_inv_head in H. by apply app_inv_tail in H.
Qed.

Lemma url_indexer_request_inj c c' :
  url (indexer_request cfg c') = url (indexer_request cfg c) ↔ c' = c.
Proof.
  split; [|by intros ->]. unfold indexer_request; cbn [url]. intros H.
  do 2 apply app_inv_head in H. by apply app_inv_tail in H.
Qed.

Lemma url_indexer_data_source c c' :
  url (indexer_request cfg c') ≠ url (data_source_request cfg c).
Proof.
  unfold indexer_request, data_source_request; cbn [url]. intros H.
  apply app_inv_head in H. cbv in H. discriminate.
Qed.

Lemma url_index_data_source c :
  url (index_request cfg) ≠ url (data_source_request cfg c).
Proof.
  unfold index_request, data_source_request; cbn [url]. intros H.
  apply app_inv_head in H. cbv in H. discriminate.
Qed.

Lemma url_index_indexer c :
  url (index_request cfg) ≠ url (indexer_request cfg c).
Proof.
  unfold index_request, indexer_request; cbn [url]. intros H.
  apply app_inv_head in H. cbv in H. discriminate.
Qed.

Lemma count_url_data_source c valid :
  count_url (url (data_source_request cfg c)) (flat_map (container_requests cfg) valid) =
    occurrences c valid.
Proof.
  induction valid as [|x valid IH]; [done|].
  cbn [flat_map container_requests app].
  rewrite !count_url_cons, IH, occurrences_cons.
  rewrite (decide_ext _ _ _ _ (url_data_source_request_inj c x)).
  rewrite (decide_False (P := url (indexer_request cfg x) = _))
    by apply url_indexer_data_source.
  by destruct (decide (x = c)).
Qed.

Lemma count_url_indexer c valid :
  count_url (url (indexer_request cfg c)) (flat_map (container_requests cfg) valid) =
    occurrences c valid.
Proof.
  induction valid as [|x valid IH]; [done|].
  cbn [flat_map container_requests app].
  rewrite !count_url_cons, IH, occurrences_cons.
  rewrite (decide_ext _ _ _ _ (url_indexer_request_inj c x)).
  rewrite (decide_False (P := url (data_source_request cfg x) = _))
    by (intros H; by apply (url_indexer_data_source x c)).
  by destruct (decide (x = c)).
Qed.

End Urls.

(** C10. The intersection keeps repetitions. If, after stripping the
    whitespace around each comma-separated entry of the allow-list, [n]
    entries (at least one) equal an available name [c], then the resolver's
    result contains [c] exactly [n] times, and a run whose requests are all
    answered sends exactly [n] requests to the data source of [c] and
    exactly [n] to the indexer of [c]. *)
Theorem repeated_names_are_kept cfg w h available c :
  transport_ok w →
  storage_lists w (STORAGE_CONN_STRING cfg) available →
  BLOB_CONTAINERS cfg ≠ [] →
  c ∈ available →
  let n := length (filter (fun entry => strip entry = c)
                          (split comma (BLOB_CONTAINERS cfg))) in
  0 < n →
  (∃ valid, outcome (get_target_containers cfg w h) = Return valid ∧
            occurrences c valid = n) ∧
  let sent := requests (emitted (run_indexing cfg w h)) in
  count_url (url (data_source_request cfg c)) sent = n ∧
  count_url (url (indexer_request cfg c)) sent = n.
Proof.
  intros Hok Hst Hset Hc n Hn.
  set (valid := valid_containers (target_names (BLOB_CONTAINERS cfg)) available).
  assert (occurrences c valid = n) as Hocc.
  { subst valid n. by rewrite occurrences_valid_containers, occurrences_target_names. }
  split.
  - exists valid. split; [|done].
    rewrite (get_target_containers_run cfg w h available Hset (Hst _)). fold valid.
    destruct valid; [|done].
    unfold occurrences in Hocc. rewrite filter_nil in Hocc. simpl in Hocc. lia.
  - intros sent. subst sent.
    rewrite (run_indexing_requests cfg w h available Hok Hst),
      (expected_requests_set cfg available Hset). fold valid.
    rewrite !count_url_cons, count_url_data_source, count_url_indexer.
    rewrite decide_False by apply url_index_data_source.
    rewrite decide_False by apply url_index_indexer.
    by rewrite Hocc.
Qed.

Lemma repeated_names_are_kept_witness :
  let cfg := load_config {[ lit "BLOB_CONTAINERS" := lit "a, a ,b" ]} in
  let w := {| storage_answer := fun _ _ => Return [lit "a"; lit "c"];
              http_answer := fun _ _ => Return {| status_code := 201; text := [] |} |} in
  let sent := requests (emitted (run_indexing cfg w [])) in
  (∃ valid, outcome (get_target_containers cfg w []) = Return valid ∧
            occurrences (lit "a") valid = 2) ∧
  count_url (url (data_source_request cfg (lit "a"))) sent = 2 ∧
  count_url (url (indexer_request cfg (lit "a"))) sent = 2.
Proof.
  intros cfg w.
  apply (repeated_names_are_kept cfg w [] [lit "a"; lit "c"] (lit "a")).
  - intros h r. eexists. reflexivity.
  - intros h. reflexivity.
  - vm_compute. discriminate.
  - left.
  - vm_compute. lia.
Defined.

(* ===================================================================== *)
(** ** The handler on concrete runs *)
(* ===================================================================== *)

Example dumps_escapes :
  dumps (JList [JStr [233; 128512; 10; 34]%N; JInt (-1); JBool true; JNull; JDict []]) =
  quoted "['\u00e9\ud83d\ude00\n\'', -1, true, null, {}]".
Proof. reflexivity. Qed.

Example manual_index_success :
  let env : Environ := {[ lit "BLOB_CONTAINERS" := lit "invoices,receipts" ]} in
  let w := {| storage_answer := fun _ _ =>
                Return [lit "receipts"; lit "archive"; lit "invoices"];
              http_answer := fun _ _ =>
                Return {| status_code := 400; text := lit "bad request" |} |} in
  outcome (manual_index (load_config env) {| req_method := lit "GET"; req_url := [];
                                             req_body := [] |} w []) =
  Return {| resp_body := quoted "{'status': 'success', 'containers': ['invoices', 'receipts']}";
            resp_status_code := 200;
            resp_mimetype := lit "application/json" |}.
Proof. reflexivity. Qed.

Example manual_index_no_valid_container :
  let env : Environ := {[ lit "BLOB_CONTAINERS" := lit "x" ]} in
  let w := {| storage_answer := fun _ _ => Return [lit "y"];
              http_answer := fun _ _ =>
                Return {| status_code := 201; text := [] |} |} in
  outcome (manual_index (load_config env) {| req_method := lit "POST"; req_url := [];
                                             req_body := [] |} w []) =
  Return {| resp_body :=
              quoted "{'status': 'error', 'message': 'No valid containers found to index.'}";
            resp_status_code := 500;
            resp_mimetype := lit "application/json" |}.
Proof. reflexivity. Qed.

Example manual_index_transport_failure :
  let env : Environ := {[ lit "BLOB_CONTAINERS" := lit "x" ]} in
  let w := {| storage_answer := fun _ _ => Return [lit "x"];
              http_answer := fun _ _ => Raise (LibraryError (lit "connection refused")) |} in
  manual_index (load_config env) {| req_method := lit "GET"; req_url := [];
                                    req_body := [] |} w [] =
  ([EvLog LogHttpTrigger; EvLog LogStart; EvLog LogCreatingIndex;
    EvRequest (index_request (load_config env));
    EvLog (LogError (lit "connection refused"))],
   Return {| resp_body := quoted "{'status': 'error', 'message': 'connection refused'}";
             resp_status_code := 500;
             resp_mimetype := lit "application/json" |}).
Proof. reflexivity. Qed.

(* ===================================================================== *)
(** ** More on [split] and [strip] *)
(* ===================================================================== *)

Lemma lstrip_decompose s :
  ∃ p, s = p ++ lstrip s ∧ is_blank p.
Proof.
  induction s as [|c s (p & Hs & Hp)]; [exists []; split; [done|constructor]|].
  simpl. destruct (isspace c) eqn:Hc.
  - exists (c :: p). split; [by rewrite <- app_comm_cons, <- Hs|by constructor].
  - exists []. split; [done|constructor].
Qed.

Lemma lstrip_head s c : head (lstrip s) = Some c → isspace c = false.
Proof.
  induction s as [|x s IH]; [done|]. simpl.
  destruct (isspace x) eqn:Hx; [done|]. by intros [= <-].
Qed.

Lemma rstrip_decompose s :
  ∃ q, s = rstrip s ++ q ∧ is_blank q.
Proof.
  unfold rstrip. destruct (lstrip_decompose (reverse s)) as (p & Hs & Hp).
  exists (reverse p). split.
  - rewrite <- reverse_app, <- Hs. by rewrite reverse_involutive.
  - unfold is_blank. by rewrite Forall_reverse.
Qed.

Lemma rstrip_last s c : last (rstrip s) = Some c → isspace c = false.
Proof. unfold rstrip. rewrite last_reverse. apply lstrip_head. Qed.

Lemma lstrip_blank s : is_blank s → lstrip s = [].
Proof.
  induction 1 as [|c s Hc _ IH]; [done|]. simpl. rewrite Hc. exact IH.
Qed.

Lemma strip_blank s : is_blank s → strip s = [].
Proof. intros Hs. unfold strip, rstrip. by rewrite (lstrip_blank s). Qed.

Lemma split_cons sep c s :
  split sep (c :: s) =
    if decide (c = sep) then [] :: split sep s
    else match split sep s with
         | [] => [[c]]
         | w :: ws => (c :: w) :: ws
         end.
Proof.
  simpl. destruct (N.eqb_spec c sep); [by rewrite decide_True|by rewrite decide_False].
Qed.

Lemma split_no_separator sep s : Forall (fun piece => sep ∉ piece) (split sep s).
Proof.
  induction s as [|c s IH]; [repeat constructor; apply not_elem_of_nil|].
  rewrite split_cons. destruct (decide (c = sep)) as [->|Hc].
  - constructor; [apply not_elem_of_nil|done].
  - destruct (split sep s) as [|w ws]; inversion_clear IH.
    + repeat constructor. rewrite list_elem_of_singleton. congruence.
    + constructor; [|done]. rewrite elem_of_cons. intros [?|?]; [congruence|done].
Qed.

Lemma split_blank sep s :
  Forall (fun c => isspace c = true ∨ c = sep) s → Forall is_blank (split sep s).
Proof.
  induction 1 as [|c s Hc _ IH]; [by repeat constructor|].
  rewrite split_cons. destruct (decide (c = sep)) as [->|Hne].
  - constructor; [constructor|done].
  - destruct Hc as [Hc|?]; [|done].
    destruct (split sep s) as [|w ws]; inversion_clear IH.
    + by repeat constructor.
    + constructor; [by constructor|done].
Qed.

Lemma lstrip_fixed s : (∀ c, head s = Some c → isspace c = false) → lstrip s = s.
Proof.
  destruct s as [|c s]; [done|]. intros H. simpl. by rewrite (H c).
Qed.

Lemma rstrip_fixed s : (∀ c, last s = Some c → isspace c = false) → rstrip s = s.
Proof.
  intros H. unfold rstrip. rewrite lstrip_fixed.
  - apply reverse_involutive.
  - intros c. rewrite head_reverse. apply H.
Qed.

Lemma join_split sep s : join [sep] (split sep s) = s.
Proof.
  induction s as [|c s IH]; [done|].
  rewrite split_cons. destruct (decide (c = sep)) as [->|Hne].
  - pose proof (split_nonempty sep s). destruct (split sep s) as [|w ws]; [done|].
    change (join [sep] ([] :: w :: ws)) with (sep :: join [sep] (w :: ws)).
    by rewrite IH.
  - pose proof (split_nonempty sep s). destruct (split sep s) as [|w ws]; [done|].
    rewrite <- IH. by destruct ws.
Qed.

Lemma count_char_cons sep c s :
  count_char sep (c :: s) = (if decide (c = sep) then 1 else 0) + count_char sep s.
Proof.
  unfold count_char. change str with (list char).
  rewrite filter_cons. by destruct (decide (c = sep)).
Qed.

Lemma length_split sep s : length (split sep s) = S (count_char sep s).
Proof.
  induction s as [|c s IH]; [done|].
  rewrite split_cons, count_char_cons. destruct (decide (c = sep)) as [->|Hne].
  - cbn [length]. by rewrite IH.
  - pose proof (split_nonempty sep s). by destruct (split sep s).
Qed.

(** X1. The entries that the resolver reads from the allow-list, before
    they are stripped, give the allow-list back when joined with commas;
    there is one entry more than there are commas, so an empty piece is
    kept as an entry; and no entry contains a comma. *)
Theorem allow_list_entries blob_containers :
  let entries := split comma blob_containers in
  join [comma] entries = blob_containers ∧
  length entries = S (count_char comma blob_containers) ∧
  length (target_names blob_containers) = length entries ∧
  Forall (fun entry => comma ∉ entry) entries.
Proof.
  intros entries. split; [apply join_split|]. split; [apply length_split|].
  split; [apply length_map|apply split_no_separator].
Qed.

Lemma strip_decompose s :
  ∃ p q, s = p ++ strip s ++ q ∧ is_blank p ∧ is_blank q.
Proof.
  destruct (lstrip_decompose s) as (p & Hs & Hp).
  destruct (rstrip_decompose (lstrip s)) as (q & Ht & Hq).
  exists p, q. unfold strip. by rewrite <- Ht.
Qed.

Lemma strip_last s c : last (strip s) = Some c → isspace c = false.
Proof. apply rstrip_last. Qed.

Lemma strip_head s c : head (strip s) = Some c → isspace c = false.
Proof.
  unfold strip. destruct (rstrip_decompose (lstrip s)) as (q & Ht & _).
  intros Hh. apply (lstrip_head s). rewrite Ht.
  destruct (rstrip (lstrip s)); [done|]. exact Hh.
Qed.

Lemma strip_idempotent s : strip (strip s) = strip s.
Proof.
  unfold strip at 1. rewrite lstrip_fixed by apply strip_head.
  apply rstrip_fixed, strip_last.
Qed.

(** X2. Stripping removes a run of whitespace at each end and nothing
    else: the entry is the stripped name between two blank strings, the
    stripped name neither starts nor ends with whitespace, an entry made
    of whitespace only strips to the empty name, and stripping again
    changes nothing. *)
Theorem strip_characterised entry :
  (∃ p q, entry = p ++ strip entry ++ q ∧ is_blank p ∧ is_blank q) ∧
  (∀ c, head (strip entry) = Some c → isspace c = false) ∧
  (∀ c, last (strip entry) = Some c → isspace c = false) ∧
  (is_blank entry → strip entry = []) ∧
  strip (strip entry) = strip entry.
Proof.
  split; [apply strip_decompose|]. split; [apply strip_head|].
  split; [apply strip_last|]. split; [apply strip_blank|apply strip_idempotent].
Qed.

(* ===================================================================== *)
(** ** More on the resolver *)
(* ===================================================================== *)

Lemma get_target_containers_inv cfg w h valid :
  outcome (get_target_containers cfg w h) = Return valid →
  BLOB_CONTAINERS cfg ≠ [] ∧ valid ≠ [] ∧
  (∃ available,
     storage_answer w (h ++ [EvListContainers (STORAGE_CONN_STRING cfg)])
       (STORAGE_CONN_STRING cfg) = Return available ∧
     valid = valid_containers (target_names (BLOB_CONTAINERS cfg)) available).
Proof.
  destruct (decide (BLOB_CONTAINERS cfg = [])) as [Hunset|Hset].
  { by rewrite get_target_containers_unset. }
  destruct (storage_answer w (h ++ [EvListContainers (STORAGE_CONN_STRING cfg)])
              (STORAGE_CONN_STRING cfg)) as [available|e] eqn:Hans.
  - rewrite (get_target_containers_run cfg w h available Hset Hans). cbn zeta.
    destruct (valid_containers _ available) as [|c l] eqn:E; [done|].
    intros [= <-]. split; [done|]. split; [done|]. by exists available.
  - by rewrite (get_target_containers_storage_raises cfg w h e Hset Hans).
Qed.

Lemma target_names_clean blob_containers c :
  c ∈ target_names blob_containers →
  (comma ∉ c) ∧ strip c = c.
Proof.
  unfold target_names. rewrite list_elem_of_In, in_map_iff.
  intros (entry & <- & Hin). apply list_elem_of_In in Hin. split.
  - pose proof (split_no_separator comma blob_containers) as Hsep.
    rewrite Forall_forall in Hsep. specialize (Hsep entry Hin).
    destruct (strip_decompose entry) as (p & q & He & _). intros Hc.
    apply Hsep. rewrite He, !elem_of_app. auto.
  - apply strip_idempotent.
Qed.

(** X3. Whatever the storage account answers, a name that the resolver
    returns contains no comma and has no whitespace at either end (it is
    unchanged by stripping), it is one of the stripped entries of the
    allow-list, and the returned list is never empty. *)
Theorem get_target_containers_names cfg w h valid :
  outcome (get_target_containers cfg w h) = Return valid →
  valid ≠ [] ∧
  (∀ c, c ∈ valid →
     c ∈ target_names (BLOB_CONTAINERS cfg) ∧ (comma ∉ c) ∧ strip c = c ∧
     (∀ x, head c = Some x → isspace x = false) ∧
     (∀ x, last c = Some x → isspace x = false)).
Proof.
  intros Hout. apply get_target_containers_inv in Hout as (_ & Hne & available & _ & ->).
  split; [done|]. intros c Hc. apply elem_of_valid_containers in Hc as [Hc _].
  destruct (target_names_clean _ c Hc) as [Hcomma Hstrip].
  split; [done|]. split; [done|]. split; [done|].
  rewrite <- Hstrip. split; [apply strip_head|apply strip_last].
Qed.

Lemma get_target_containers_names_witness :
  let cfg := load_config {[ lit "BLOB_CONTAINERS" := lit " invoices ,receipts" ]} in
  let w := {| storage_answer := fun _ _ => Return [lit "invoices"; lit " invoices "];
              http_answer := fun _ _ => Raise (LibraryError []) |} in
  outcome (get_target_containers cfg w []) = Return [lit "invoices"] ∧
  (∀ c, c ∈ [lit "invoices"] →
     c ∈ target_names (BLOB_CONTAINERS cfg) ∧ (comma ∉ c) ∧ strip c = c ∧
     (∀ x, head c = Some x → isspace x = false) ∧
     (∀ x, last c = Some x → isspace x = false)).
Proof.
  intros cfg w. split; [reflexivity|].
  apply (get_target_containers_names cfg w [] [lit "invoices"]). reflexivity.
Defined.

(** X4. In any world the resolver sends nothing to the search service and
    enumerates the storage account at most once, with the configured
    connection string: not at all when the allow-list is unset or empty,
    exactly once otherwise, whether or not the enumeration succeeds. *)
Theorem get_target_containers_calls cfg w h :
  calls (emitted (get_target_containers cfg w h)) =
    match BLOB_CONTAINERS cfg with
    | [] => []
    | _ :: _ => [EvListContainers (STORAGE_CONN_STRING cfg)]
    end ∧
  requests (emitted (get_target_containers cfg w h)) = [].
Proof.
  destruct (decide (BLOB_CONTAINERS cfg = [])) as [Hunset|Hset].
  { rewrite get_target_containers_unset, Hunset by done. by split. }
  destruct (storage_answer w (h ++ [EvListContainers (STORAGE_CONN_STRING cfg)])
              (STORAGE_CONN_STRING cfg)) as [available|e] eqn:Hans.
  - rewrite (get_target_containers_run cfg w h available Hset Hans). cbn zeta.
    destruct (BLOB_CONTAINERS cfg); [done|].
    by destruct (valid_containers _ available).
  - rewrite (get_target_containers_storage_raises cfg w h e Hset Hans).
    by destruct (BLOB_CONTAINERS cfg).
Qed.

(** X5. An allow-list that is not empty but holds only whitespace and
    commas is not treated as unset: the storage account is enumerated, and
    the resolver then raises the error of an empty intersection, unless
    the account has a container with the empty name. *)
Theorem get_target_containers_blank_allow_list cfg w h available :
  BLOB_CONTAINERS cfg ≠ [] →
  Forall (fun c => isspace c = true ∨ c = comma) (BLOB_CONTAINERS cfg) →
  storage_answer w (h ++ [EvListContainers (STORAGE_CONN_STRING cfg)])
    (STORAGE_CONN_STRING cfg) = Return available →
  [] ∉ available →
  get_target_containers cfg w h =
    ([EvListContainers (STORAGE_CONN_STRING cfg); EvLog (LogAvailable available)],
     Raise err_no_valid).
Proof.
  intros Hset Hblank Hans Hempty.
  rewrite (get_target_containers_run cfg w h available Hset Hans). cbn zeta.
  assert (valid_containers (target_names (BLOB_CONTAINERS cfg)) available = []) as ->; [|done].
  apply valid_containers_nil. intros c Hc.
  unfold target_names in Hc. rewrite list_elem_of_In, in_map_iff in Hc.
  destruct Hc as (entry & <- & Hin). apply list_elem_of_In in Hin.
  pose proof (split_blank comma _ Hblank) as Hall.
  rewrite Forall_forall in Hall. by rewrite (strip_blank entry (Hall entry Hin)).
Qed.

Lemma get_target_containers_blank_allow_list_witness :
  let cfg := load_config {[ lit "BLOB_CONTAINERS" := lit " , " ]} in
  let w := {| storage_answer := fun _ _ => Return [lit "invoices"];
              http_answer := fun _ _ => Raise (LibraryError []) |} in
  get_target_containers cfg w [] =
    ([EvListContainers None; EvLog (LogAvailable [lit "invoices"])], Raise err_no_valid).
Proof.
  intros cfg w.
  apply (get_target_containers_blank_allow_list cfg w [] [lit "invoices"]).
  - vm_compute. discriminate.
  - change (BLOB_CONTAINERS cfg) with [32%N; comma; 32%N].
    repeat (constructor; [first [by left|by right]|]). constructor.
  - reflexivity.
  - vm_compute. intros H. inversion H as [|? ? ? H']. inversion H'.
Defined.

(* ===================================================================== *)
(** ** Runs in an arbitrary world *)
(* ===================================================================== *)

Lemma container_steps_calls cfg w h c :
  let o := (create_data_source cfg c;; create_indexer cfg c) w h in
  calls (emitted o) `prefix_of` map EvRequest (container_requests cfg c) ∧
  (outcome o = Return tt → calls (emitted o) = map EvRequest (container_requests cfg c)).
Proof.
  unfold create_data_source, Printing.create_data_source, create_indexer, Printing.create_indexer,
    mbind, M_bind, log, Printing.log, accepting, send. cbn zeta.
  destruct (http_answer w _ (data_source_request cfg c)) as [r1|e1]; cbn.
  - destruct (http_answer w _ (indexer_request cfg c)) as [r2|e2]; cbn; by split.
  - split; [|done]. by exists [EvRequest (indexer_request cfg c)].
Qed.

Lemma for_each_calls cfg w valid :
  ∀ h,
    let o := for_each valid
               (fun c => create_data_source cfg c;; create_indexer cfg c) w h in
    calls (emitted o) `prefix_of` map EvRequest (flat_map (container_requests cfg) valid) ∧
    (outcome o = Return tt →
     calls (emitted o) = map EvRequest (flat_map (container_requests cfg) valid)).
Proof.
  induction valid as [|c valid IH]; intros h; [by split|].
  cbn [for_each flat_map]. rewrite map_app.
  destruct (container_steps_calls cfg w h c) as [Hpre Hret].
  destruct ((create_data_source cfg c;; create_indexer cfg c) w h) as [ev1 [[]|e1]] eqn:E1;
    cbn [emitted outcome fst snd] in *.
  - rewrite (bind_Return _ _ _ _ _ _ E1). cbn [emitted outcome fst snd].
    destruct (IH (h ++ ev1)) as [IHpre IHret].
    rewrite calls_app, Hret by done. split.
    + by apply prefix_app.
    + intros Hout. by rewrite IHret.
  - rewrite (bind_Raise _ _ _ _ _ _ E1). cbn [emitted outcome fst snd].
    split; [|done]. by apply prefix_app_r.
Qed.

(** What every run looks like from outside, in any world: its calls are a
    beginning of the index request, the storage enumeration and the
    requests of the containers [valid], which are entries of the allow-list
    that the storage account listed; a run that returns has made them
    all. *)
Lemma run_indexing_calls_listing cfg w h :
  let o := run_indexing cfg w h in
  let conn := STORAGE_CONN_STRING cfg in
  ∃ valid,
    (valid = [] ∨
     ∃ pre post available,
       emitted o = pre ++ EvListContainers conn :: post ∧
       calls pre = [EvRequest (index_request cfg)] ∧
       storage_answer w ((h ++ pre) ++ [EvListContainers conn]) conn = Return available ∧
       valid = valid_containers (target_names (BLOB_CONTAINERS cfg)) available) ∧
    (∃ rest, calls (emitted o) = EvRequest (index_request cfg) :: rest) ∧
    calls (emitted o) `prefix_of`
      EvRequest (index_request cfg) :: EvListContainers conn ::
      map EvRequest (flat_map (container_requests cfg) valid) ∧
    (∀ result, outcome o = Return result →
       result = success_descriptor valid ∧ valid ≠ [] ∧
       calls (emitted o) =
         EvRequest (index_request cfg) :: EvListContainers conn ::
         map EvRequest (flat_map (container_requests cfg) valid)).
Proof.
  intros o conn. subst o.
  destruct (http_answer w (((h ++ [EvLog LogStart]) ++ [EvLog LogCreatingIndex]) ++
                           [EvRequest (index_request cfg)]) (index_request cfg))
    as [r0|e0] eqn:H0.
  2:{ exists []. split; [by left|].
      unfold run_indexing, Printing.run_indexing. fold_accepting.
      run_step (log_run LogStart w h).
      rewrite (bind_Raise _ _ _ _ _ _
                 (create_search_index_unanswered cfg w (h ++ [EvLog LogStart]) e0 H0)).
      cbn [emitted outcome fst snd]. split; [by eexists|]. split; [by eexists|done]. }
  rewrite (run_indexing_index_step cfg w h r0 H0). cbn [emitted outcome fst snd].
  set (ev0 := [EvLog LogStart; _; _; _]).
  assert (∀ tr, calls (ev0 ++ tr) = EvRequest (index_request cfg) :: calls tr) as Hev0
    by (intros tr; by rewrite calls_app).
  setoid_rewrite Hev0.
  destruct (decide (BLOB_CONTAINERS cfg = [])) as [Hunset|Hset].
  { exists []. split; [by left|].
    rewrite (bind_Raise _ _ _ _ _ _ (get_target_containers_unset cfg w (h ++ ev0) Hunset)).
    cbn [emitted outcome fst snd]. split; [by eexists|]. split; [|done].
    apply prefix_cons, prefix_nil. }
  destruct (storage_answer w ((h ++ ev0) ++ [EvListContainers conn]) conn)
    as [available|e] eqn:Hans.
  2:{ exists []. split; [by left|].
      rewrite (bind_Raise _ _ _ _ _ _
                 (get_target_containers_storage_raises cfg w (h ++ ev0) e Hset Hans)).
      cbn [emitted outcome fst snd]. split; [by eexists|]. split; [|done].
      by apply prefix_cons. }
  pose proof (get_target_containers_run cfg w (h ++ ev0) available Hset Hans) as E1.
  cbn zeta in E1.
  exists (valid_containers (target_names (BLOB_CONTAINERS cfg)) available).
  destruct (valid_containers (target_names (BLOB_CONTAINERS cfg)) available)
    as [|v0 vs] eqn:Ev.
  { rewrite (bind_Raise _ _ _ _ _ _ E1). cbn [emitted outcome fst snd].
    split; [by left|].
    split; [by eexists|]. split; [|done]. by apply prefix_cons. }
  rewrite <- Ev in *. run_step E1.
  match goal with |- context [(for_each ?v ?b ≫= _) w ?h'] =>
    destruct (for_each_calls cfg w v h') as [Hpre Hret];
    destruct (for_each v b w h') as [ev2 [[]|e2]] eqn:E2
  end; cbn [emitted outcome fst snd] in *.
  - run_step E2.
    split.
    { right. exists ev0. eexists. exists available.
      split; [reflexivity|]. split; [reflexivity|]. by split. }
    rewrite !calls_app, Hret by done.
    cbn [calls List.filter is_call app]. rewrite app_nil_r.
    split; [by eexists|]. split; [done|].
    intros result [= <-]. rewrite Ev. by split.
  - rewrite (bind_Raise _ _ _ _ _ _ E2). cbn [emitted outcome fst snd].
    split.
    { right. exists ev0. eexists. exists available.
      split; [reflexivity|]. split; [reflexivity|]. by split. }
    rewrite calls_app. cbn [calls List.filter is_call app].
    split; [by eexists|]. split; [|done]. by do 2 apply prefix_cons.
Qed.

Lemma run_indexing_calls_inv cfg w h :
  let o := run_indexing cfg w h in
  let conn := STORAGE_CONN_STRING cfg in
  ∃ valid,
    (valid = [] ∨
     ∃ h' available, storage_answer w h' conn = Return available ∧
       valid = valid_containers (target_names (BLOB_CONTAINERS cfg)) available) ∧
    (∃ rest, calls (emitted o) = EvRequest (index_request cfg) :: rest) ∧
    calls (emitted o) `prefix_of`
      EvRequest (index_request cfg) :: EvListContainers conn ::
      map EvRequest (flat_map (container_requests cfg) valid) ∧
    (∀ result, outcome o = Return result →
       result = success_descriptor valid ∧ valid ≠ [] ∧
       calls (emitted o) =
         EvRequest (index_request cfg) :: EvListContainers conn ::
         map EvRequest (flat_map (container_requests cfg) valid)).
Proof.
  intros o conn.
  destruct (run_indexing_calls_listing cfg w h) as (valid & Hvalid & Hrest).
  exists valid. split; [|exact Hrest].
  destruct Hvalid as [->|(pre & post & available & _ & _ & Hans & ->)]; [by left|].
  right. by exists ((h ++ pre) ++ [EvListContainers conn]), available.
Qed.

Lemma requests_prefix tr1 tr2 :
  tr1 `prefix_of` tr2 → requests tr1 `prefix_of` requests tr2.
Proof. intros [k ->]. rewrite requests_app. by eexists. Qed.

Lemma run_indexing_requests_inv cfg w h :
  ∃ valid,
    (valid = [] ∨
     ∃ h' available, storage_answer w h' (STORAGE_CONN_STRING cfg) = Return available ∧
       valid = valid_containers (target_names (BLOB_CONTAINERS cfg)) available) ∧
    requests (emitted (run_indexing cfg w h)) `prefix_of`
      index_request cfg :: flat_map (container_requests cfg) valid.
Proof.
  destruct (run_indexing_calls_inv cfg w h) as (valid & Hvalid & _ & Hpre & _).
  exists valid. split; [done|].
  apply requests_prefix in Hpre. rewrite requests_calls in Hpre.
  change (requests (_ :: _ :: ?l)) with (index_request cfg :: requests l) in Hpre.
  by rewrite requests_map_EvRequest in Hpre.
Qed.

Lemma run_indexing_index_request_first_aux cfg w h :
  ∃ rest, requests (emitted (run_indexing cfg w h)) = index_request cfg :: rest.
Proof.
  destruct (run_indexing_calls_inv cfg w h) as (_ & _ & [rest Hrest] & _).
  exists (requests rest). by rewrite <- requests_calls, Hrest.
Qed.

(** X6. In every world and for every configuration, set or not, the first
    thing a run does outside the process is to send the index request: the
    allow-list is validated, and the storage account consulted, only after
    it. *)
Theorem run_indexing_index_request_first cfg w h :
  ∃ rest, calls (emitted (run_indexing cfg w h)) = EvRequest (index_request cfg) :: rest.
Proof. by destruct (run_indexing_calls_inv cfg w h) as (_ & _ & H & _). Qed.

(** X7. In every world, each request of a run is the index request, or
    the data-source or indexer request of a container that is an entry
    of the allow-list and that is in the answer the storage account gave
    to the enumeration of this run (the call the run made right after
    the index request): nothing is sent for any other name. *)
Theorem run_indexing_requests_allowed cfg w h r :
  r ∈ requests (emitted (run_indexing cfg w h)) →
  r = index_request cfg ∨
  ∃ c, (r = data_source_request cfg c ∨ r = indexer_request cfg c) ∧
       c ∈ target_names (BLOB_CONTAINERS cfg) ∧
       ∃ pre post available,
         emitted (run_indexing cfg w h) =
           pre ++ EvListContainers (STORAGE_CONN_STRING cfg) :: post ∧
         calls pre = [EvRequest (index_request cfg)] ∧
         storage_answer w ((h ++ pre) ++ [EvListContainers (STORAGE_CONN_STRING cfg)])
           (STORAGE_CONN_STRING cfg) = Return available ∧
         c ∈ available.
Proof.
  intros Hr.
  destruct (run_indexing_calls_listing cfg w h) as (valid & Hvalid & _ & Hpre & _).
  apply requests_prefix in Hpre. rewrite requests_calls in Hpre.
  change (requests (_ :: _ :: ?l)) with (index_request cfg :: requests l) in Hpre.
  rewrite requests_map_EvRequest in Hpre. destruct Hpre as [k Hk].
  assert (r ∈ index_request cfg :: flat_map (container_requests cfg) valid) as Hin.
  { rewrite Hk, elem_of_app. by left. }
  apply elem_of_cons in Hin as [->|Hin]; [by left|]. right.
  apply list_elem_of_In, in_flat_map in Hin as (c & Hc & Hrc).
  apply list_elem_of_In in Hc.
  destruct Hvalid as [->|(pre & post & available & Hem & Hcalls & Hans & ->)];
    [by apply not_elem_of_nil in Hc|].
  apply elem_of_valid_containers in Hc as [Ht Ha].
  exists c. split.
  - destruct Hrc as [<-|[<-|[]]]; auto.
  - split; [done|]. by exists pre, post, available.
Qed.

Lemma run_indexing_requests_allowed_witness :
  let cfg := load_config {[ lit "BLOB_CONTAINERS" := lit "invoices" ]} in
  let w := {| storage_answer := fun _ _ => Return [lit "invoices"];
              http_answer := fun _ _ => Return {| status_code := 201; text := [] |} |} in
  let r := data_source_request cfg (lit "invoices") in
  r ∈ requests (emitted (run_indexing cfg w [])) ∧
  (r = index_request cfg ∨
   ∃ c, (r = data_source_request cfg c ∨ r = indexer_request cfg c) ∧
        c ∈ target_names (BLOB_CONTAINERS cfg) ∧
        ∃ pre post available,
          emitted (run_indexing cfg w []) =
            pre ++ EvListContainers (STORAGE_CONN_STRING cfg) :: post ∧
          calls pre = [EvRequest (index_request cfg)] ∧
          storage_answer w (([] ++ pre) ++ [EvListContainers (STORAGE_CONN_STRING cfg)])
            (STORAGE_CONN_STRING cfg) = Return available ∧
          c ∈ available).
Proof.
  intros cfg w r.
  assert (r ∈ requests (emitted (run_indexing cfg w []))) as Hr by (right; left).
  split; [exact Hr|]. exact (run_indexing_requests_allowed cfg w [] r Hr).
Defined.

(** X8. In every world a run sends at most 2k + 3 requests, where k is the
    number of commas in the allow-list. *)
Theorem run_indexing_requests_bound cfg w h :
  length (requests (emitted (run_indexing cfg w h))) ≤
    2 * count_char comma (BLOB_CONTAINERS cfg) + 3.
Proof.
  destruct (run_indexing_requests_inv cfg w h) as (valid & Hvalid & Hpre).
  apply prefix_length in Hpre. cbn [length] in Hpre.
  rewrite length_container_requests in Hpre.
  assert (length valid ≤ S (count_char comma (BLOB_CONTAINERS cfg))) as Hlen.
  { destruct Hvalid as [->|(h' & available & _ & ->)]; [simpl; lia|].
    rewrite <- length_split. unfold valid_containers, target_names.
    etrans; [apply length_filter|]. by rewrite length_map. }
  lia.
Qed.

Lemma container_requests_lookup_indexer cfg valid :
  ∀ i r,
    flat_map (container_requests cfg) valid !! i = Some r →
    resource_of cfg r = Some Indexer →
    ∃ c j, i = S j ∧ r = indexer_request cfg c ∧
           flat_map (container_requests cfg) valid !! j = Some (data_source_request cfg c).
Proof.
  induction valid as [|c valid IH]; intros i r Hi Hr; [done|].
  cbn [flat_map container_requests app] in *.
  destruct i as [|[|i]]; simplify_eq/=.
  - by rewrite resource_of_data_source_request in Hr.
  - by exists c, 0.
  - destruct (IH i r Hi Hr) as (c' & j & -> & -> & Hj). by exists c', (S (S j)).
Qed.

(** X9. In every world, an indexer request is never sent before the
    data-source request of the same container: the request sent just
    before the indexer request of a container is that container's
    data-source request. *)
Theorem indexer_request_follows_data_source cfg w h i r :
  requests (emitted (run_indexing cfg w h)) !! i = Some r →
  resource_of cfg r = Some Indexer →
  ∃ c j, i = S j ∧ r = indexer_request cfg c ∧
         requests (emitted (run_indexing cfg w h)) !! j =
           Some (data_source_request cfg c).
Proof.
  intros Hi Hr.
  destruct (run_indexing_requests_inv cfg w h) as (valid & _ & Hpre).
  pose proof (prefix_lookup_Some _ _ _ _ Hi Hpre) as Hfull.
  destruct i as [|i]; simplify_eq/=.
  { by rewrite resource_of_index_request in Hr. }
  destruct (container_requests_lookup_indexer cfg valid i r Hfull Hr)
    as (c & j & -> & -> & Hj).
  exists c, (S j). split; [done|]. split; [done|].
  destruct Hpre as [k Hk].
  assert (S j < length (requests (emitted (run_indexing cfg w h)))) as Hlt.
  { apply lookup_lt_Some in Hi. lia. }
  apply lookup_lt_is_Some in Hlt as [x Hx].
  pose proof (prefix_lookup_Some _ _ _ _ Hx (ex_intro _ k Hk)) as Hx'.
  simpl in Hx'. congruence.
Qed.

Lemma indexer_request_follows_data_source_witness :
  let cfg := load_config {[ lit "BLOB_CONTAINERS" := lit "invoices" ]} in
  let w := {| storage_answer := fun _ _ => Return [lit "invoices"];
              http_answer := fun _ _ => Return {| status_code := 500; text := [] |} |} in
  ∃ c j, 2 = S j ∧ indexer_request cfg (lit "invoices") = indexer_request cfg c ∧
         requests (emitted (run_indexing cfg w [])) !! j =
           Some (data_source_request cfg c).
Proof.
  intros cfg w.
  apply (indexer_request_follows_data_source cfg w [] 2
           (indexer_request cfg (lit "invoices"))).
  - reflexivity.
  - reflexivity.
Defined.

(** X10. In every world, a run that returns has made all its calls: the
    index request, one enumeration of the storage account, then the
    data-source and the indexer request of every returned container, in
    order; the containers it returns are the entries of the allow-list
    that are in the answer the storage account gave to that enumeration,
    and there is at least one. A success says that the requests were
    sent, not that they were accepted. *)
Theorem run_indexing_success cfg w h result :
  outcome (run_indexing cfg w h) = Return result →
  ∃ pre post available,
    emitted (run_indexing cfg w h) =
      pre ++ EvListContainers (STORAGE_CONN_STRING cfg) :: post ∧
    calls pre = [EvRequest (index_request cfg)] ∧
    storage_answer w ((h ++ pre) ++ [EvListContainers (STORAGE_CONN_STRING cfg)])
      (STORAGE_CONN_STRING cfg) = Return available ∧
    let valid := valid_containers (target_names (BLOB_CONTAINERS cfg)) available in
    valid ≠ [] ∧
    result = JDict [(lit "status", JStr (lit "success"));
                    (lit "containers", JList (map JStr valid))] ∧
    calls (emitted (run_indexing cfg w h)) =
      EvRequest (index_request cfg) :: EvListContainers (STORAGE_CONN_STRING cfg) ::
      map EvRequest
        (flat_map (fun c => [data_source_request cfg c; indexer_request cfg c]) valid).
Proof.
  intros Hout.
  destruct (run_indexing_calls_listing cfg w h) as (valid & Hvalid & _ & _ & Hret).
  destruct (Hret result Hout) as (-> & Hne & Hcalls).
  destruct Hvalid as [->|(pre & post & available & Hem & Hpre & Hans & ->)]; [done|].
  by exists pre, post, available.
Qed.

Lemma run_indexing_success_witness :
  let cfg := load_config {[ lit "BLOB_CONTAINERS" := lit "invoices" ]} in
  let w := {| storage_answer := fun _ _ => Return [lit "invoices"];
              http_answer := fun _ _ => Return {| status_code := 403; text := [] |} |} in
  outcome (run_indexing cfg w []) = Return (success_descriptor [lit "invoices"]) ∧
  ∃ pre post available,
    emitted (run_indexing cfg w []) =
      pre ++ EvListContainers (STORAGE_CONN_STRING cfg) :: post ∧
    calls pre = [EvRequest (index_request cfg)] ∧
    storage_answer w (([] ++ pre) ++ [EvListContainers (STORAGE_CONN_STRING cfg)])
      (STORAGE_CONN_STRING cfg) = Return available ∧
    let valid := valid_containers (target_names (BLOB_CONTAINERS cfg)) available in
    valid ≠ [] ∧
    success_descriptor [lit "invoices"] =
      JDict [(lit "status", JStr (lit "success"));
             (lit "containers", JList (map JStr valid))] ∧
    calls (emitted (run_indexing cfg w [])) =
      EvRequest (index_request cfg) :: EvListContainers (STORAGE_CONN_STRING cfg) ::
      map EvRequest
        (flat_map (fun c => [data_source_request cfg c; indexer_request cfg c]) valid).
Proof.
  intros cfg w. split; [reflexivity|].
  apply (run_indexing_success cfg w [] (success_descriptor [lit "invoices"])).
  reflexivity.
Defined.

(* ===================================================================== *)
(** ** Failures of the network and of the storage account *)
(* ===================================================================== *)

Lemma manual_index_run cfg req w h :
  manual_index cfg req w h =
    let o := run_indexing cfg w (h ++ [EvLog LogHttpTrigger]) in
    match outcome o with
    | Return result =>
        (EvLog LogHttpTrigger :: emitted o,
         Return {| resp_body := dumps result; resp_status_code := 200;
                   resp_mimetype := lit "application/json" |})
    | Raise e =>
        (EvLog LogHttpTrigger :: emitted o ++ [EvLog (LogError (exn_str e))],
         Return {| resp_body := dumps (error_descriptor (exn_str e));
                   resp_status_code := 500;
                   resp_mimetype := lit "application/json" |})
    end.
Proof.
  unfold manual_index, Printing.manual_index. fold_accepting.
  rewrite (bind_Return _ _ _ _ _ _ (log_run LogHttpTrigger w h)).
  unfold try_except. cbn zeta.
  destruct (run_indexing cfg w (h ++ [EvLog LogHttpTrigger])) as [ev [result|e]] eqn:Hrun;
    cbn [emitted outcome fst snd app].
  - rewrite (bind_Return _ _ _ _ _ _ Hrun). cbn. by rewrite app_nil_r.
  - by rewrite (bind_Raise _ _ _ _ _ _ Hrun).
Qed.

Lemma manual_index_printing (out : Stdout) cfg req w h :
  Printing.manual_index out cfg req w h =
    match out h LogHttpTrigger with
    | Raise e0 => ([], Raise e0)
    | Return _ =>
        let h0 := h ++ [EvLog LogHttpTrigger] in
        let o := Printing.run_indexing out cfg w h0 in
        match outcome o with
        | Return result =>
            (EvLog LogHttpTrigger :: emitted o,
             Return {| resp_body := dumps result; resp_status_code := 200;
                       resp_mimetype := lit "application/json" |})
        | Raise e =>
            match out (h0 ++ emitted o) (LogError (exn_str e)) with
            | Return _ =>
                (EvLog LogHttpTrigger :: emitted o ++ [EvLog (LogError (exn_str e))],
                 Return {| resp_body := dumps (error_descriptor (exn_str e));
                           resp_status_code := 500;
                           resp_mimetype := lit "application/json" |})
            | Raise e' => (EvLog LogHttpTrigger :: emitted o, Raise e')
            end
        end
    end.
Proof.
  unfold Printing.manual_index.
  destruct (out h LogHttpTrigger) as [[]|e0] eqn:H0.
  2:{ by rewrite (bind_Raise _ _ _ _ _ _ (log_not_printed out _ w h e0 H0)). }
  run_step (log_printed out _ w h H0). unfold try_except. cbn zeta.
  destruct (Printing.run_indexing out cfg w (h ++ [EvLog LogHttpTrigger]))
    as [ev [result|e]] eqn:Hrun; cbn [emitted outcome fst snd app].
  - rewrite (bind_Return _ _ _ _ _ _ Hrun). cbn. by rewrite app_nil_r.
  - rewrite (bind_Raise _ _ _ _ _ _ Hrun).
    destruct (out ((h ++ [EvLog LogHttpTrigger]) ++ ev) (LogError (exn_str e)))
      as [[]|e'] eqn:H1.
    + by run_step (log_printed out _ w _ H1).
    + rewrite (bind_Raise _ _ _ _ _ _ (log_not_printed out _ w _ e' H1)).
      cbn. by rewrite app_nil_r.
Qed.

(** X11. The handler starts one run and makes no call of its own: nothing
    is tried a second time. Whatever the world and the standard output
    do, when its first line is written its calls outside the process are
    exactly those of that run, and when it is not the handler raises
    having done nothing. When the handler returns, the status is 200
    exactly when the run returned and 500 exactly when the run raised.
    The handler raises only when [print] raises on one of its own two
    lines: the first one, which is outside the [try], or the line that
    logs the error, which is inside the [except]. *)
Theorem manual_index_single_run (out : Stdout) cfg req w h :
  let run := Printing.run_indexing out cfg w (h ++ [EvLog LogHttpTrigger]) in
  let o := Printing.manual_index out cfg req w h in
  (out h LogHttpTrigger = Return tt → calls (emitted o) = calls (emitted run)) ∧
  (∀ e, out h LogHttpTrigger = Raise e → o = ([], Raise e)) ∧
  (∀ response, outcome o = Return response →
     (resp_status_code response = 200%Z ∧ ∃ result, outcome run = Return result) ∨
     (resp_status_code response = 500%Z ∧ ∃ e, outcome run = Raise e)) ∧
  (∀ e, outcome o = Raise e →
     out h LogHttpTrigger = Raise e ∨
     ∃ e_run, outcome run = Raise e_run ∧
       out ((h ++ [EvLog LogHttpTrigger]) ++ emitted run) (LogError (exn_str e_run)) =
         Raise e).
Proof.
  intros run o. subst o. rewrite manual_index_printing. cbn zeta. fold run.
  destruct (out h LogHttpTrigger) as [[]|e0] eqn:H0.
  2:{ split; [done|]. split; [by intros e [= <-]|]. split; [done|].
      intros e [= <-]. by left. }
  destruct (outcome run) as [result|e_run] eqn:Hrun; cbn [emitted outcome fst snd].
  { split; [done|]. split; [done|]. split; [|done].
    intros response [= <-]. left. eauto. }
  destruct (out ((h ++ [EvLog LogHttpTrigger]) ++ emitted run) (LogError (exn_str e_run)))
    as [[]|e'] eqn:H1; cbn [emitted outcome fst snd].
  - split.
    { intros _. change (calls (?x :: ?l)) with (calls l).
      rewrite calls_app. apply app_nil_r. }
    split; [done|]. split; [|done]. intros response [= <-]. right. eauto.
  - split; [done|]. split; [done|]. split; [done|].
    intros e [= <-]. right. by exists e_run.
Qed.





(* ===================================================================== *)
(** ** The text of the response *)
(* ===================================================================== *)

Lemma JSON_nested_ind (P : JSON → Prop) :
  P JNull → (∀ b, P (JBool b)) → (∀ z, P (JInt z)) → (∀ s, P (JStr s)) →
  (∀ l, Forall P l → P (JList l)) →
  (∀ kvs, Forall (fun kv => P kv.2) kvs → P (JDict kvs)) →
  ∀ v, P v.
Proof.
  intros Hn Hb Hz Hs Hl Hd. fix IH 1. intros [|b|z|s|l|kvs].
  - exact Hn.
  - apply Hb.
  - apply Hz.
  - apply Hs.
  - apply Hl. induction l as [|x l IHl]; constructor; [apply IH|exact IHl].
  - apply Hd. induction kvs as [|[k x] kvs IHkvs]; constructor; [apply IH|exact IHkvs].
Qed.

Lemma is_ascii_app s1 s2 : is_ascii (s1 ++ s2) = is_ascii s1 && is_ascii s2.
Proof. apply forallb_app. Qed.

Lemma is_ascii_cons c s : is_ascii (c :: s) = printable c && is_ascii s.
Proof. reflexivity. Qed.

Lemma printable_hexdigit n : printable (hexdigit (N.land n 15)) = true.
Proof.
  assert (N.land n 15 < 16)%N as Hlt.
  { change 15%N with (N.ones 4). rewrite N.land_ones. by apply N.mod_lt. }
  unfold hexdigit, printable. destruct (N.ltb_spec (N.land n 15) 10);
    apply andb_true_intro; split; apply N.leb_le; lia.
Qed.

Lemma is_ascii_escape_u n : is_ascii (escape_u n) = true.
Proof.
  unfold escape_u, hex4. rewrite !is_ascii_cons, !printable_hexdigit. reflexivity.
Qed.

Lemma is_ascii_escape_char c : is_ascii (escape_char c) = true.
Proof.
  unfold escape_char.
  repeat (match goal with |- context [(c =? ?k)%N] => destruct (c =? k)%N end;
          [reflexivity|]).
  destruct ((32 <=? c) && (c <=? 126))%N eqn:Hp.
  - rewrite is_ascii_cons. unfold printable. by rewrite Hp.
  - destruct (c <? 65536)%N; [apply is_ascii_escape_u|].
    cbn zeta. by rewrite is_ascii_app, !is_ascii_escape_u.
Qed.

Lemma is_ascii_encode_basestring_ascii s : is_ascii (encode_basestring_ascii s) = true.
Proof.
  unfold encode_basestring_ascii. rewrite is_ascii_cons, is_ascii_app.
  assert (is_ascii (concat (map escape_char s)) = true) as ->; [|reflexivity].
  induction s as [|c s IH]; [done|].
  cbn [map concat]. by rewrite is_ascii_app, is_ascii_escape_char.
Qed.

Lemma is_ascii_join sep parts :
  is_ascii sep = true → Forall (fun p => is_ascii p = true) parts →
  is_ascii (join sep parts) = true.
Proof.
  intros Hsep. induction 1 as [|p ps Hp Hps IH]; [done|].
  destruct ps as [|p' ps]; [done|].
  change (join sep (p :: p' :: ps)) with (p ++ sep ++ join sep (p' :: ps)).
  by rewrite !is_ascii_app, Hp, Hsep, IH.
Qed.

Lemma is_ascii_string_of_uint d : is_ascii (lit (NilEmpty.string_of_uint d)) = true.
Proof. induction d; [done|exact IHd..]. Qed.

Lemma is_ascii_of_Z z : is_ascii (of_Z z) = true.
Proof.
  unfold of_Z. destruct (Z.to_int z) as [d|d]; cbn [NilZero.string_of_int].
  - destruct d; [done|apply (is_ascii_string_of_uint (_ d))..].
  - change (is_ascii (45%N :: lit (NilZero.string_of_uint d)) = true).
    rewrite is_ascii_cons.
    destruct d; [done|apply (is_ascii_string_of_uint (_ d))..].
Qed.

Lemma is_ascii_dumps v : is_ascii (dumps v) = true.
Proof.
  induction v as [|b|z|s|l IH|kvs IH] using JSON_nested_ind.
  - done.
  - by destruct b.
  - apply is_ascii_of_Z.
  - apply is_ascii_encode_basestring_ascii.
  - cbn [dumps]. rewrite !is_ascii_app, is_ascii_join; [done..|].
    induction IH; constructor; auto.
  - cbn [dumps]. rewrite !is_ascii_app, is_ascii_join; [done..|].
    induction IH as [|[k x] kvs Hx _ IHkvs]; constructor; [|exact IHkvs].
    cbn [snd] in Hx. by rewrite !is_ascii_app, is_ascii_encode_basestring_ascii, Hx.
Qed.

(** X14. The body of every response of the handler is printable ASCII,
    whatever characters the container names or the text of the exception
    contain: [json.dumps] escapes everything else. *)
Theorem manual_index_body_ascii cfg req w h :
  ∃ response,
    outcome (manual_index cfg req w h) = Return response ∧
    is_ascii (resp_body response) = true ∧
    Forall (fun c => (32 ≤ c ∧ c ≤ 126)%N) (resp_body response).
Proof.
  rewrite manual_index_run. cbn zeta.
  assert (∀ s, is_ascii s = true → Forall (fun c => (32 ≤ c ∧ c ≤ 126)%N) s) as Hall.
  { intros s Hs. apply Forall_forall. intros c Hc.
    unfold is_ascii in Hs. rewrite forallb_forall in Hs.
    apply list_elem_of_In, Hs, andb_prop in Hc as [H1 H2].
    split; by apply N.leb_le. }
  destruct (outcome (run_indexing cfg w (h ++ [EvLog LogHttpTrigger]))) as [result|e];
    eexists; (split; [reflexivity|]); cbn [resp_body];
    (split; [|apply Hall]); apply is_ascii_dumps.
Qed.

(* ===================================================================== *)
(** ** The shape of the requests *)
(* ===================================================================== *)

(** X15. Different containers never share a resource of the search
    service: the data-source URL and the indexer URL each determine the
    container, and no URL is used for two kinds of request. *)
Theorem request_urls_distinct cfg c c' :
  (url (data_source_request cfg c) = url (data_source_request cfg c') ↔ c = c') ∧
  (url (indexer_request cfg c) = url (indexer_request cfg c') ↔ c = c') ∧
  url (data_source_request cfg c) ≠ url (indexer_request cfg c') ∧
  url (index_request cfg) ≠ url (data_source_request cfg c) ∧
  url (index_request cfg) ≠ url (indexer_request cfg c).
Proof.
  split; [apply url_data_source_request_inj|].
  split; [apply url_indexer_request_inj|].
  split; [intros H; by apply (url_indexer_data_source cfg c c')|].
  split; [apply url_index_data_source|apply url_index_indexer].
Qed.

(** X16. In every world, each request of a run carries the same two
    headers, the JSON content type and the api-key read from the
    environment ([None] when it is unset), and its URL is the configured
    endpoint followed by a path and the fixed API version. *)
Theorem run_indexing_request_shape cfg w h r :
  r ∈ requests (emitted (run_indexing cfg w h)) →
  headers r = [(lit "Content-Type", Some (lit "application/json"));
               (lit "api-key", SEARCH_API_KEY cfg)] ∧
  ∃ path, url r = format (SEARCH_ENDPOINT cfg) ++ path ++ lit "?api-version=2024-07-01".
Proof.
  intros Hr. destruct (run_indexing_requests_inv cfg w h) as (valid & _ & [k Hk]).
  assert (r ∈ index_request cfg :: flat_map (container_requests cfg) valid) as Hin.
  { rewrite Hk, elem_of_app. by left. }
  apply elem_of_cons in Hin as [->|Hin].
  { split; [done|]. by exists (lit "/indexes"). }
  apply list_elem_of_In, in_flat_map in Hin as (c & _ & [<-|[<-|[]]]).
  - split; [done|]. exists (lit "/datasources/" ++ c ++ lit "-ds").
    unfold data_source_request; cbn [url]. by rewrite <- !app_assoc.
  - split; [done|]. exists (lit "/indexers/" ++ c ++ lit "-idx").
    unfold indexer_request; cbn [url]. by rewrite <- !app_assoc.
Qed.

Lemma run_indexing_request_shape_witness :
  let cfg := load_config {[ lit "BLOB_CONTAINERS" := lit "invoices" ]} in
  let w := {| storage_answer := fun _ _ => Return [lit "invoices"];
              http_answer := fun _ _ => Return {| status_code := 201; text := [] |} |} in
  let r := indexer_request cfg (lit "invoices") in
  r ∈ requests (emitted (run_indexing cfg w [])) ∧
  headers r = [(lit "Content-Type", Some (lit "application/json"));
               (lit "api-key", SEARCH_API_KEY cfg)] ∧
  ∃ path, url r = format (SEARCH_ENDPOINT cfg) ++ path ++ lit "?api-version=2024-07-01".
Proof.
  intros cfg w r.
  assert (r ∈ requests (emitted (run_indexing cfg w []))) as Hr by (right; right; left).
  split; [exact Hr|]. exact (run_indexing_request_shape cfg w [] r Hr).
Defined.

(** X17. An unset search endpoint is not detected: the run goes ahead,
    the first thing it does is still to send the index request, and the
    URL of every request it sends starts with the word None followed by
    the path. *)
Theorem run_indexing_unset_endpoint env w h :
  env !! lit "AZURE_SEARCH_ENDPOINT" = None →
  let sent := requests (emitted (run_indexing (load_config env) w h)) in
  (∃ r rest, sent = r :: rest ∧ method r = POST ∧
             url r = lit "None/indexes?api-version=2024-07-01") ∧
  (∀ r, r ∈ sent → starts_with (lit "None/") (url r) = true).
Proof.
  intros Hunset sent.
  assert (SEARCH_ENDPOINT (load_config env) = None) as Hend by done.
  split.
  - destruct (run_indexing_index_request_first_aux (load_config env) w h) as [rest Hrest].
    exists (index_request (load_config env)), rest. split; [done|]. split; [done|].
    unfold index_request; cbn [url]. by rewrite Hend.
  - intros r Hr.
    destruct (run_indexing_requests_inv (load_config env) w h) as (valid & _ & [k Hk]).
    assert (r ∈ index_request (load_config env) ::
                flat_map (container_requests (load_config env)) valid) as Hin.
    { rewrite Hk, elem_of_app. by left. }
    apply elem_of_cons in Hin as [->|Hin].
    { unfold index_request; cbn [url]. by rewrite Hend. }
    apply list_elem_of_In, in_flat_map in Hin as (c & _ & [<-|[<-|[]]]).
    + unfold data_source_request; cbn [url]. by rewrite Hend.
    + unfold indexer_request; cbn [url]. by rewrite Hend.
Qed.

Lemma run_indexing_unset_endpoint_witness :
  let env : Environ := {[ lit "BLOB_CONTAINERS" := lit "invoices" ]} in
  let w := {| storage_answer := fun _ _ => Return [lit "invoices"];
              http_answer := fun _ _ => Raise (LibraryError (lit "Invalid URL")) |} in
  ∃ r rest, requests (emitted (run_indexing (load_config env) w [])) = r :: rest ∧
            method r = POST ∧ url r = lit "None/indexes?api-version=2024-07-01".
Proof.
  intros env w.
  apply (run_indexing_unset_endpoint env w []). reflexivity.
Defined.

(* ===================================================================== *)
(** ** Allow-lists without repetition, and the order of the listing *)
(* ===================================================================== *)

Lemma occurrences_not_elem_of c l : c ∉ l → occurrences c l = 0.
Proof.
  induction l as [|x l IH]; [done|]. rewrite not_elem_of_cons. intros [Hne Hl].
  rewrite occurrences_cons, IH by done. by rewrite decide_False.
Qed.

Lemma count_url_container_requests_NoDup cfg u valid :
  NoDup valid → count_url u (flat_map (container_requests cfg) valid) ≤ 1.
Proof.
  induction 1 as [|c valid Hc Hnd IH]; [by cbv; lia|].
  cbn [flat_map container_requests app]. rewrite !count_url_cons.
  destruct (decide (url (data_source_request cfg c) = u)) as [<-|Hds].
  - rewrite decide_False by apply url_indexer_data_source.
    rewrite count_url_data_source, occurrences_not_elem_of by done. lia.
  - destruct (decide (url (indexer_request cfg c) = u)) as [<-|Hidx]; [|lia].
    rewrite count_url_indexer, occurrences_not_elem_of by done. lia.
Qed.

Lemma count_url_index_containers cfg valid :
  count_url (url (index_request cfg)) (flat_map (container_requests cfg) valid) = 0.
Proof.
  induction valid as [|c valid IH]; [done|].
  cbn [flat_map container_requests app]. rewrite !count_url_cons, IH.
  rewrite decide_False by (intros H; by apply (url_index_data_source cfg c)).
  by rewrite decide_False by (intros H; by apply (url_index_indexer cfg c)).
Qed.

Lemma count_url_prefix u rs1 rs2 :
  rs1 `prefix_of` rs2 → count_url u rs1 ≤ count_url u rs2.
Proof.
  intros [k ->]. unfold count_url. rewrite filter_app, length_app. lia.
Qed.

(** X18. When the stripped entries of the allow-list are pairwise
    different, a run, in any world, sends at most one request to any URL:
    no resource of the search service is written twice. *)
Theorem run_indexing_no_repeated_url cfg w h u :
  NoDup (target_names (BLOB_CONTAINERS cfg)) →
  count_url u (requests (emitted (run_indexing cfg w h))) ≤ 1.
Proof.
  intros Hnd. destruct (run_indexing_requests_inv cfg w h) as (valid & Hvalid & Hpre).
  etrans; [apply (count_url_prefix _ _ _ Hpre)|].
  assert (NoDup valid) as Hv.
  { destruct Hvalid as [->|(h' & available & _ & ->)]; [constructor|].
    eapply sublist_NoDup; [exact Hnd|apply valid_containers_sublist]. }
  rewrite count_url_cons.
  destruct (decide (url (index_request cfg) = u)) as [<-|Hne].
  - rewrite count_url_index_containers. lia.
  - by apply count_url_container_requests_NoDup.
Qed.

Lemma run_indexing_no_repeated_url_witness :
  let cfg := load_config {[ lit "BLOB_CONTAINERS" := lit "invoices,receipts" ]} in
  let w := {| storage_answer := fun _ _ => Return [lit "invoices"; lit "receipts"];
              http_answer := fun _ _ => Return {| status_code := 201; text := [] |} |} in
  count_url (url (data_source_request cfg (lit "invoices")))
    (requests (emitted (run_indexing cfg w []))) ≤ 1.
Proof.
  intros cfg w. apply run_indexing_no_repeated_url.
  change (target_names (BLOB_CONTAINERS cfg)) with [lit "invoices"; lit "receipts"].
  apply NoDup_cons. split; [|apply NoDup_singleton].
  rewrite list_elem_of_singleton. vm_compute. discriminate.
Defined.

(** X19. The resolver's result depends on the storage listing only as a
    set: two listings with the same names, in any order and with any
    repetitions, give the same outcome. *)
Theorem get_target_containers_listing_order cfg w1 h1 w2 h2 available1 available2 :
  storage_answer w1 (h1 ++ [EvListContainers (STORAGE_CONN_STRING cfg)])
    (STORAGE_CONN_STRING cfg) = Return available1 →
  storage_answer w2 (h2 ++ [EvListContainers (STORAGE_CONN_STRING cfg)])
    (STORAGE_CONN_STRING cfg) = Return available2 →
  (∀ c, c ∈ available1 ↔ c ∈ available2) →
  outcome (get_target_containers cfg w1 h1) = outcome (get_target_containers cfg w2 h2).
Proof.
  intros H1 H2 Hsame.
  destruct (decide (BLOB_CONTAINERS cfg = [])) as [Hunset|Hset].
  { by rewrite !get_target_containers_unset. }
  rewrite (get_target_containers_run cfg w1 h1 available1 Hset H1),
    (get_target_containers_run cfg w2 h2 available2 Hset H2). cbn zeta.
  assert (valid_containers (target_names (BLOB_CONTAINERS cfg)) available1 =
          valid_containers (target_names (BLOB_CONTAINERS cfg)) available2) as ->.
  { unfold valid_containers. by apply list_filter_iff. }
  by destruct (valid_containers _ available2).
Qed.

Lemma get_target_containers_listing_order_witness :
  let cfg := load_config {[ lit "BLOB_CONTAINERS" := lit "a,b" ]} in
  let w1 := {| storage_answer := fun _ _ => Return [lit "a"; lit "b"];
               http_answer := fun _ _ => Raise (LibraryError []) |} in
  let w2 := {| storage_answer := fun _ _ => Return [lit "b"; lit "a"; lit "b"];
               http_answer := fun _ _ => Raise (LibraryError []) |} in
  outcome (get_target_containers cfg w1 []) = outcome (get_target_containers cfg w2 []).
Proof.
  intros cfg w1 w2.
  apply (get_target_containers_listing_order cfg w1 [] w2 []
           [lit "a"; lit "b"] [lit "b"; lit "a"; lit "b"]).
  - reflexivity.
  - reflexivity.
  - intros c. rewrite !elem_of_cons. pose proof (not_elem_of_nil c). tauto.
Defined.

Example manual_index_error_line_not_printed :
  let env : Environ := {[ lit "BLOB_CONTAINERS" := lit "x" ]} in
  let e := LibraryError (lit "'ascii' codec can't encode character") in
  let out : Stdout := fun _ m =>
    match m with
    | LogError _ => Raise e
    | _ => Return tt
    end in
  let w := {| storage_answer := fun _ _ => Return [lit "y"];
              http_answer := fun _ _ =>
                Return {| status_code := 201; text := [] |} |} in
  outcome (Printing.manual_index out (load_config env)
             {| req_method := lit "GET"; req_url := []; req_body := [] |} w []) =
  Raise e.
Proof. reflexivity. Qed.
